(** * Symbolizer: a shallow embedding of the trace symbolization pipeline

    The development follows the C++ sources of the tool:
    - [DbgEng]  : the memoizing front-end of the debug engine
                  (class [DbgEng_t], method [Symbolize]);
    - [Stream]  : the revision of [SymbolizeFile] / [main] that reads the
                  trace with [std::getline] and parses with
                  [strtoull(.., 0)];
    - [Mapped]  : the revision of [SymbolizeFile] / [main] that scans a
                  memory-mapped view with [strchr] and parses with
                  [strtoull(.., 16)];
    - [Legacy]  : the first, single-file revision ([class Debugger]).

    Unsigned 64-bit quantities are values of [N] with the wrap-around
    written out; C strings are [string]s cut at the first NUL; a [char*]
    into an immutable buffer is the suffix of the buffer it points to.
    Whether a zero byte follows the bytes of a buffer is said where it
    matters: a [std::string] always has one, a mapped view has one only
    when the file does not fill its last page. *)

From Stdlib Require Import NArith Lia Ascii String DecimalString HexadecimalString.
From stdpp Require Import gmap strings list fin_maps.

Local Open Scope N_scope.

(** ** Machine integers *)

Definition U64_MOD : N := 2 ^ 64.
Definition ULLONG_MAX : N := U64_MOD - 1.

(** Reduction of a mathematical value into [uint64_t]. *)
Definition u64 (x : N) : N := x mod U64_MOD.

(** [x++] on a [uint64_t]. *)
Definition incr (x : N) : N := u64 (x + 1).

Definition EXIT_SUCCESS : N := 0.
Definition EXIT_FAILURE : N := 1.

(** ** C strings *)

Definition LF : ascii := "010"%char.
Definition CR : ascii := "013"%char.
Definition NUL : ascii := "000"%char.

(** A one-line-feed string, handy to write trace files down. *)
Definition nl : string := String LF EmptyString.

(** [isspace] in the "C" locale: space, and the range HT .. CR. *)
Definition isspace (c : ascii) : bool :=
  let n := N_of_ascii c in
  (n =? 32) || ((9 <=? n) && (n <=? 13)).

(** Value of a character read as a digit in some base up to 36. *)
Definition digit_value (c : ascii) : option N :=
  let n := N_of_ascii c in
  if (48 <=? n) && (n <=? 57) then Some (n - 48)
  else if (97 <=? n) && (n <=? 122) then Some (n - 97 + 10)
  else if (65 <=? n) && (n <=? 90) then Some (n - 65 + 10)
  else None.

Definition is_digit_in (base : N) (c : ascii) : bool :=
  match digit_value c with
  | Some d => d <? base
  | None => false
  end.

Fixpoint skip_space (s : string) : string :=
  match s with
  | String c r => if isspace c then skip_space r else s
  | EmptyString => s
  end.

(** The longest run of digits of [base] at the head of [s], as a number
    (not yet clamped to 64 bits). *)
Fixpoint accumulate (base : N) (s : string) (acc : N) : N :=
  match s with
  | String c r =>
      match digit_value c with
      | Some d => if d <? base then accumulate base r (acc * base + d) else acc
      | None => acc
      end
  | EmptyString => acc
  end.

(** Does [s] start with "0x" / "0X" followed by a hexadecimal digit? If
    so the function returns what follows the marker. *)
Definition hex_prefix (s : string) : option string :=
  match s with
  | String z (String x r) =>
      if (Ascii.eqb z "0" && (Ascii.eqb x "x" || Ascii.eqb x "X"))%bool then
        match r with
        | String h _ => if is_digit_in 16 h then Some r else None
        | EmptyString => None
        end
      else None
  | _ => None
  end.

Definition starts_with_zero (s : string) : bool :=
  match s with
  | String c _ => Ascii.eqb c "0"
  | EmptyString => false
  end.

(** Choice of the base and of the first digit, as [strtoull] does for the
    bases the program uses: 0 (auto-detection) and 16. *)
Definition select_base (base : N) (s : string) : N * string :=
  if base =? 0 then
    match hex_prefix s with
    | Some r => (16, r)
    | None => if starts_with_zero s then (8, s) else (10, s)
    end
  else if base =? 16 then
    match hex_prefix s with
    | Some r => (16, r)
    | None => (16, s)
    end
  else (base, s).

(** One optional sign. *)
Definition split_sign (s : string) : bool * string :=
  match s with
  | String c r =>
      if Ascii.eqb c "-" then (true, r)
      else if Ascii.eqb c "+" then (false, r)
      else (false, s)
  | EmptyString => (false, s)
  end.

(** Sign handling and clamping: a value that does not fit yields
    [ULLONG_MAX]; a leading minus negates in the unsigned type. *)
Definition finish (neg : bool) (v : N) : N :=
  if ULLONG_MAX <? v then ULLONG_MAX
  else if neg then u64 (U64_MOD - v) else v.

(** [std::strtoull(s, nullptr, base)]. A text where no digit can be read
    gives 0: [accumulate] then returns its initial accumulator. *)
Definition strtoull (s : string) (base : N) : N :=
  let '(neg, s2) := split_sign (skip_space s) in
  let '(b, s3) := select_base base s2 in
  finish neg (accumulate b s3 0).

(** [strchr(s, c)] for [c <> NUL]: the suffix starting at the first [c],
    the search stopping at the terminating NUL. *)
Fixpoint strchr (s : string) (c : ascii) : option string :=
  match s with
  | String a r =>
      if Ascii.eqb a c then Some s
      else if Ascii.eqb a NUL then None
      else strchr r c
  | EmptyString => None
  end.

(** Does [strchr(s, c)] read the byte that follows [s]? It does when
    neither [c] nor a NUL is met in [s]. *)
Fixpoint strchr_reads_end (s : string) (c : ascii) : bool :=
  match s with
  | String a r =>
      if Ascii.eqb a c then false
      else if Ascii.eqb a NUL then false
      else strchr_reads_end r c
  | EmptyString => true
  end.

(** "0x" or "0X" and nothing more. *)
Definition bare_marker (s : string) : bool :=
  match s with
  | String z (String x EmptyString) =>
      (Ascii.eqb z "0" && (Ascii.eqb x "x" || Ascii.eqb x "X"))%bool
  | _ => false
  end.

(** Does [strtoull(s, nullptr, base)] read the byte that follows [s]? The
    conversion stops at the first character it cannot use, so it does
    when blanks, sign, base marker and digits take up all of [s]. *)
Definition strtoull_reads_end (s : string) (base : N) : bool :=
  let '(_, s2) := split_sign (skip_space s) in
  let '(b, s3) := select_base base s2 in
  ((((base =? 0) || (base =? 16)) && bare_marker s2)
   || forallb (is_digit_in b) (list_ascii_of_string s3))%bool.

(** [p + 1] for a pointer [p] to a character that is not the terminator. *)
Definition next (p : string) : string :=
  match p with
  | String _ r => r
  | EmptyString => EmptyString
  end.

(** The characters from [from] up to (excluding) the position [upto], a
    suffix of [from]: [std::string_view(from, upto)]. *)
Definition string_view (from upto : string) : string :=
  String.substring 0 (String.length from - String.length upto) from.

(** Decimal rendering of a number ("{}" of fmt, "%llu" of printf). *)
Definition to_dec (n : N) : string := DecimalString.NilEmpty.string_of_uint (N.to_uint n).

(** Lower-case hexadecimal rendering ("{:x}" of fmt, "%llx" of printf). *)
Definition to_hex (n : N) : string :=
  HexadecimalString.NilEmpty.string_of_uint (N.to_hex_uint n).

(** * The debug-engine front-end: [class DbgEng_t] *)

Module DbgEng.

(** [enum class TraceStyle_t { Modoff, FullSymbol }]. *)
Inductive TraceStyle_t : Set := Modoff | FullSymbol.

#[global] Instance TraceStyle_eq_dec : EqDecision TraceStyle_t.
Proof. solve_decision. Defined.

(** One request sent to the engine by the slow path of [Symbolize]. *)
Definition Query : Type := TraceStyle_t * N.

(** The three [IDebugSymbols3] entry points the class calls. [None] is a
    [FAILED] status. The engine is a stateful external service: each
    answer may depend on the requests served so far. *)
Record Api : Type := {
  GetModuleByOffset : list Query -> N -> option (N * N);
  GetModuleNameString : list Query -> N -> N -> option string;
  GetNameByOffset : list Query -> N -> option (string * N)
}.

(** The object state: the cache, and (as ghost state) the requests that
    reached the engine, oldest first. *)
Record DbgEng_t : Type := {
  Cache_ : gmap N string;
  Queries_ : list Query
}.

Definition fresh : DbgEng_t := {| Cache_ := ∅; Queries_ := [] |}.

(** [std::unordered_map::emplace]: no effect when the key is present. *)
Definition emplace (k : N) (v : string) (m : gmap N string) : gmap N string :=
  match m !! k with
  | Some _ => m
  | None => <[k := v]> m
  end.

Section WithApi.
Variable api : Api.

(** module+offset style. *)
Definition SymbolizeModoff (h : list Query) (SymbolAddress : N) : option string :=
  match GetModuleByOffset api h SymbolAddress with
  | None => None
  | Some (Index, Base) =>
      match GetModuleNameString api h Index Base with
      | None => None
      | Some Buffer =>
          let Offset := u64 (SymbolAddress + U64_MOD - Base) in
          Some (Buffer +:+ "+0x" +:+ to_hex Offset)
      end
  end.

(** Full symbol style. *)
Definition SymbolizeFull (h : list Query) (SymbolAddress : N) : option string :=
  match GetNameByOffset api h SymbolAddress with
  | None => None
  | Some (Buffer, Displacement) =>
      Some (Buffer +:+ "+0x" +:+ to_hex Displacement)
  end.

(** The engine behind the cache, whatever the style. *)
Definition SymbolResolver (h : list Query) (q : Query) : option string :=
  match q.1 with
  | Modoff => SymbolizeModoff h q.2
  | FullSymbol => SymbolizeFull h q.2
  end.

(** [DbgEng_t::Symbolize]. The result of the slow path is read back
    from the cache ([Cache_.at]). The text the two helpers print when the
    engine fails is left out. *)
Definition Symbolize (d : DbgEng_t) (SymbolAddress : N) (Style : TraceStyle_t)
  : option string * DbgEng_t :=
  match Cache_ d !! SymbolAddress with
  | Some s => (Some s, d)
  | None =>
      let Res :=
        match Style with
        | Modoff => SymbolizeModoff (Queries_ d) SymbolAddress
        | FullSymbol => SymbolizeFull (Queries_ d) SymbolAddress
        end in
      let asked := Queries_ d ++ [(Style, SymbolAddress)] in
      match Res with
      | None => (None, {| Cache_ := Cache_ d; Queries_ := asked |})
      | Some r =>
          let c := emplace SymbolAddress r (Cache_ d) in
          (c !! SymbolAddress, {| Cache_ := c; Queries_ := asked |})
      end
  end.

(** A run of calls, results dropped. *)
Fixpoint Symbolize_all (d : DbgEng_t) (calls : list Query) : DbgEng_t :=
  match calls with
  | [] => d
  | (Style, SymbolAddress) :: rest =>
      Symbolize_all (Symbolize d SymbolAddress Style).2 rest
  end.

End WithApi.

(** How many requests of a log concern one address. *)
Definition invocations (a : N) (h : list Query) : nat :=
  length (filter (fun q : Query => q.2 = a) h).

End DbgEng.

Import DbgEng.

(** * What the two revisions of symbolizer.cc share *)

(** The command-line options, after parsing. Paths are strings. *)
Record Opts_t : Type := {
  Input : string;
  Output : string;
  CrashdumpPath : string;
  Skip : N;
  Max : N;
  Style : TraceStyle_t;
  Overwrite : bool;
  LineNumbers : bool
}.

Record Stats_t : Type := {
  NumberSymbolizedLines : N;
  NumberFailedSymbolization : N;
  NumberFiles : N
}.

(** ** The file system, as far as the program looks at it

    A path names a regular file with its bytes, a directory with the names
    of its entries in iteration order, or something else that exists. The
    empty path names nothing. *)
Inductive Node : Type :=
| File (content : string)
| Dir (entries : list string)
| Other.

Definition fs_lookup (fs : gmap string Node) (p : string) : option Node :=
  if decide (p = EmptyString) then None else fs !! p.

Definition fs_exists (fs : gmap string Node) (p : string) : bool :=
  match fs_lookup fs p with Some _ => true | None => false end.

Definition is_directory (fs : gmap string Node) (p : string) : bool :=
  match fs_lookup fs p with Some (Dir _) => true | _ => false end.

Definition is_regular_file (fs : gmap string Node) (p : string) : bool :=
  match fs_lookup fs p with Some (File _) => true | _ => false end.

Definition is_separator (c : ascii) : bool :=
  (Ascii.eqb c "/" || Ascii.eqb c "\")%bool.

(** [path::filename]: what follows the last separator. *)
Fixpoint filename (p : string) : string :=
  match p with
  | String c r =>
      if is_separator c then filename r
      else if existsb is_separator (list_ascii_of_string r) then filename r
      else p
  | EmptyString => EmptyString
  end.

Definition last_is_separator (p : string) : bool :=
  match rev (list_ascii_of_string p) with
  | c :: _ => is_separator c
  | [] => false
  end.

(** [dir / name] for a relative [name]. *)
Definition path_join (dir name : string) : string :=
  if decide (dir = EmptyString) then name
  else if last_is_separator dir then dir +:+ name
  else dir +:+ "\" +:+ name.

(** [std::string::ends_with]. *)
Definition ends_with (s suffix : string) : bool :=
  let n := String.length s in
  let m := String.length suffix in
  ((m <=? n)%nat && String.eqb (String.substring (n - m) m s) suffix)%bool.

Definition symbolizer_suffix : string := ".symbolizer".

(** ** What the process prints

    [Written] is text sent to the output trace (a file, or the standard
    output); [Printed] is a message of the program on the standard
    output. Both are kept in emission order. *)
Inductive Message : Type :=
| HitMaximum (max : N)
| SymbolizationFailed (file : string) (LineNumber Address : N) (text : string)
| CouldNotOpenInput (path : string)
| CouldNotOpenOutput (path : string)
| CouldNotMap
| InitFailed
| BadOutputForDirectory
| StartingToProcess
| Skipping (path : string)
| AlreadyExists (path : string)
| WillBeOverwritten (path : string)
| ParsingFailed (path : string)
| FileDone (done total : N) (path : string)
| Completed (stats : Stats_t).

Inductive Event : Type :=
| Written (text : string)
| Printed (m : Message).

(** The bytes an event list sends to the output trace. *)
Fixpoint written (evs : list Event) : string :=
  match evs with
  | [] => EmptyString
  | Written t :: r => t +:+ written r
  | Printed _ :: r => written r
  end.

(** What is left of it on the standard output when the trace goes to a
    file. *)
Fixpoint printed_only (evs : list Event) : list Event :=
  match evs with
  | [] => []
  | Written _ :: r => printed_only r
  | Printed m :: r => Printed m :: printed_only r
  end.

(** The running state of the per-file loop. *)
Record Loop : Type := {
  LDbg : DbgEng_t;
  LSymbolized : N;
  LFailed : N;
  LEvents : list Event
}.

(** Everything the process can change: the engine object, the global
    [Stats], the file system and the standard output. *)
Record World : Type := {
  WDbg : DbgEng_t;
  WStats : Stats_t;
  WFs : gmap string Node;
  WStdout : list Event
}.

Definition say (m : Message) (w : World) : World :=
  {| WDbg := WDbg w; WStats := WStats w; WFs := WFs w;
     WStdout := WStdout w ++ [Printed m] |}.

(** The text of a successful line, with its optional line-number marker. *)
Definition trace_line (opts : Opts_t) (LineNumber : N) (symbol : string) : list Event :=
  (if LineNumbers opts then [Written ("l" +:+ to_dec LineNumber +:+ ": ")] else [])
  ++ [Written (symbol +:+ nl)].

Definition loop_start (d : DbgEng_t) : Loop :=
  {| LDbg := d; LSymbolized := 0; LFailed := 0; LEvents := [] |}.

(** The two updates of the loop state, shared by both revisions. *)
Definition line_failed (st : Loop) (d : DbgEng_t) (m : Message) : Loop :=
  {| LDbg := d; LSymbolized := LSymbolized st;
     LFailed := incr (LFailed st);
     LEvents := LEvents st ++ [Printed m] |}.

Definition line_symbolized (st : Loop) (d : DbgEng_t) (out : list Event) : Loop :=
  {| LDbg := d; LSymbolized := incr (LSymbolized st);
     LFailed := LFailed st;
     LEvents := LEvents st ++ out |}.

Definition loop_say (st : Loop) (m : Message) : Loop :=
  {| LDbg := LDbg st; LSymbolized := LSymbolized st; LFailed := LFailed st;
     LEvents := LEvents st ++ [Printed m] |}.

(** [Stats.NumberSymbolizedLines += ..; Stats.NumberFailedSymbolization += ..]. *)
Definition add_stats (s : Stats_t) (st : Loop) : Stats_t :=
  {| NumberSymbolizedLines := u64 (NumberSymbolizedLines s + LSymbolized st);
     NumberFailedSymbolization := u64 (NumberFailedSymbolization s + LFailed st);
     NumberFiles := NumberFiles s |}.

Definition file_counted (w : World) : World :=
  {| WDbg := WDbg w;
     WStats := {| NumberSymbolizedLines := NumberSymbolizedLines (WStats w);
                  NumberFailedSymbolization := NumberFailedSymbolization (WStats w);
                  NumberFiles := incr (NumberFiles (WStats w)) |};
     WFs := WFs w; WStdout := WStdout w |}.

(** The world once the per-file loop is over: the trace goes to the
    standard output when [Output] is empty, to the file otherwise. *)
Definition commit (w : World) (fs : gmap string Node) (Output : string) (st : Loop) : World :=
  if decide (Output = EmptyString) then
    {| WDbg := LDbg st; WStats := add_stats (WStats w) st; WFs := fs;
       WStdout := WStdout w ++ LEvents st |}
  else
    {| WDbg := LDbg st; WStats := add_stats (WStats w) st;
       WFs := <[Output := File (written (LEvents st))]> fs;
       WStdout := WStdout w ++ printed_only (LEvents st) |}.

(** The output path of a job, from the flags [main] computes up front. *)
Definition output_path (opts : Opts_t) (OutputIsDirectory OutputDoesntExist OutputIsFile : bool)
  (Input : string) : string :=
  if OutputIsDirectory then
    path_join (Output opts) (filename Input +:+ symbolizer_suffix)
  else if (OutputDoesntExist || OutputIsFile)%bool then Output opts
  else EmptyString.

(** The job list: the entries of a directory, or the single input. *)
Definition enumerate (fs : gmap string Node) (opts : Opts_t) : list string :=
  match fs_lookup fs (Input opts) with
  | Some (Dir entries) => map (path_join (Input opts)) entries
  | _ => [Input opts]
  end.

(** * The revision reading with [std::getline] *)

Module Stream.

(** The lines [std::getline] returns, one after the other: a last line
    needs no line feed, and a final line feed opens no empty line. The
    text is the file as the stream delivers it. *)
Fixpoint getlines (s : string) : list string :=
  match s with
  | EmptyString => []
  | String c r =>
      if Ascii.eqb c LF then EmptyString :: getlines r
      else match getlines r with
           | [] => [String c EmptyString]
           | l :: ls => String c l :: ls
           end
  end.

Section WithApi.
Variable api : Api.
Variable opts : Opts_t.

(** The [for] loop of [SymbolizeFile] over the lines still to be read. *)
Fixpoint read_loop (file : string) (lines : list string) (LineNumber : N) (st : Loop)
  : Loop :=
  match lines with
  | [] => st
  | Line :: rest =>
      if Max opts <=? LSymbolized st then loop_say st (HitMaximum (Max opts))
      else if LineNumber <? Skip opts then read_loop file rest (incr LineNumber) st
      else
        let Address := strtoull Line 0 in
        match Symbolize api (LDbg st) Address (Style opts) with
        | (None, d) =>
            read_loop file rest (incr LineNumber)
              (line_failed st d (SymbolizationFailed file LineNumber Address Line))
        | (Some symbol, d) =>
            read_loop file rest (incr LineNumber)
              (line_symbolized st d (trace_line opts LineNumber symbol))
        end
  end.

(** [SymbolizeFile]. The output is opened (and truncated) before the
    first line is read. *)
Definition SymbolizeFile (w : World) (Input Output : string) : bool * World :=
  match fs_lookup (WFs w) Input with
  | Some (File _) =>
      let OutputIsStdout := bool_decide (Output = EmptyString) in
      let opened :=
        if OutputIsStdout then Some (WFs w)
        else match fs_lookup (WFs w) Output with
             | Some (Dir _) | Some Other => None
             | _ => Some (<[Output := File EmptyString]> (WFs w))
             end in
      match opened with
      | None => (false, say (CouldNotOpenOutput Output) w)
      | Some fs =>
          let text :=
            match fs_lookup fs Input with
            | Some (File content) => content
            | _ => EmptyString
            end in
          let st := read_loop (filename Input) (getlines text) 0 (loop_start (WDbg w)) in
          (true, commit w fs Output st)
      end
  | _ => (false, say (CouldNotOpenInput Input) w)
  end.

(** The loop of [main] over the jobs. [Some code] is a [return] from
    inside the loop. *)
Fixpoint jobs_loop (dirO noO fileO stdO : bool) (total : N) (Inputs : list string)
  (w : World) : option N * World :=
  match Inputs with
  | [] => (None, w)
  | Input :: rest =>
      if ends_with (filename Input) symbolizer_suffix then
        jobs_loop dirO noO fileO stdO total rest (say (Skipping Input) w)
      else
        let Output := output_path opts dirO noO fileO Input in
        if (negb stdO && fs_exists (WFs w) Output && negb (Overwrite opts))%bool then
          (Some EXIT_SUCCESS, say (AlreadyExists Output) w)
        else
          let w1 :=
            if (negb stdO && fs_exists (WFs w) Output)%bool
            then say (WillBeOverwritten Output) w else w in
          match SymbolizeFile w1 Input Output with
          | (false, w2) => (None, say (ParsingFailed Input) w2)
          | (true, w2) =>
              let w3 := file_counted w2 in
              jobs_loop dirO noO fileO stdO total rest
                (say (FileDone (NumberFiles (WStats w3)) total Input) w3)
          end
  end.

(** The statistics as the last message shows them. *)
Definition shown (s : Stats_t) : Stats_t :=
  {| NumberSymbolizedLines :=
       if 1000000 <=? NumberSymbolizedLines s then NumberSymbolizedLines s / 1000000
       else if 1000 <=? NumberSymbolizedLines s then NumberSymbolizedLines s / 1000
       else NumberSymbolizedLines s;
     NumberFailedSymbolization := NumberFailedSymbolization s;
     NumberFiles := NumberFiles s |}.

(** [main], from the parsed options on. [InitOk] is the result of
    [DbgEng.Init]. *)
Definition main (InitOk : bool) (w : World) : N * World :=
  let InputIsDirectory := is_directory (WFs w) (Input opts) in
  let OutputIsDirectory := is_directory (WFs w) (Output opts) in
  let OutputDoesntExist := negb (fs_exists (WFs w) (Output opts)) in
  let OutputIsFile := is_regular_file (WFs w) (Output opts) in
  let OutputIsStdout := bool_decide (Output opts = EmptyString) in
  if negb InitOk then (EXIT_FAILURE, say InitFailed w)
  else
    let w1 :=
      if (InputIsDirectory && negb OutputIsDirectory && negb OutputIsStdout)%bool
      then say BadOutputForDirectory w else w in
    let Inputs := enumerate (WFs w) opts in
    match jobs_loop OutputIsDirectory OutputDoesntExist OutputIsFile OutputIsStdout
            (N.of_nat (length Inputs)) Inputs (say StartingToProcess w1) with
    | (Some code, w2) => (code, w2)
    | (None, w2) =>
        let s := shown (WStats w2) in
        (EXIT_SUCCESS,
         say (Completed s)
           {| WDbg := WDbg w2; WStats := s; WFs := WFs w2; WStdout := WStdout w2 |})
    end.

End WithApi.
End Stream.

(** * The revision scanning a memory-mapped view *)

Module Mapped.

(** The page size of the memory manager on x86 and x64, the platforms
    the source builds for. *)
Definition PAGE_SIZE : N := 4096.

(** Is the view of a file of these bytes followed by a zero byte? The
    view is mapped without a size: the last page is zero-filled past the
    end of the file, and when the file fills its last page what follows
    the view is not part of the mapping. *)
Definition terminated (View : string) : bool :=
  negb (N.of_nat (String.length View) mod PAGE_SIZE =? 0).

(** How the [for] loop over a view ends: the loop is over, or a read of
    [strchr] or [strtoull] went past the end of the view, with the loop
    state at that point. What the process does from there on is not
    defined by the source. *)
Inductive Scan : Type :=
| Finished (st : Loop)
| RanOff (st : Loop).

(** How a call of [SymbolizeFile] ends: it returns, the exception of
    [fmt::output_file] leaves it, or it reads past the view. *)
Inductive Outcome : Type :=
| Done (ok : bool)
| Threw
| ReadPastView.

(** How the process ends. *)
Inductive Termination : Type :=
| Exit (code : N)
| Uncaught
| Fault.

(** The loop state when the engine has answered and nothing else has been
    done for the line yet. *)
Definition asked (st : Loop) (d : DbgEng_t) : Loop :=
  {| LDbg := d; LSymbolized := LSymbolized st; LFailed := LFailed st;
     LEvents := LEvents st |}.

(** The world recorded up to a read past the view: the counters have not
    reached [Stats], and the trace text still buffered for an output
    file is not accounted for. *)
Definition ran_off (w : World) (fs : gmap string Node) (Output : string) (st : Loop)
  : World :=
  {| WDbg := LDbg st; WStats := WStats w; WFs := fs;
     WStdout := WStdout w ++ (if decide (Output = EmptyString) then LEvents st
                              else printed_only (LEvents st)) |}.

Section WithApi.
Variable api : Api.
Variable opts : Opts_t.

(** The text of the failed line in the message: up to the first carriage
    return found from the start of the line if there is one, up to the
    line feed otherwise. *)
Definition FailedLine (LastLine LineFeed : string) : string :=
  match strchr LastLine CR with
  | Some CarriageReturn => string_view LastLine CarriageReturn
  | None => string_view LastLine LineFeed
  end.

(** The [for] loop of [SymbolizeFile]. [Line] is the pointer into the
    view, that is the bytes of the file from there on; one unit of [fuel]
    is one evaluation of the loop condition. The view is read as a C
    string, with no regard for its size: a read stops at the first NUL
    among the bytes, or at the zero byte that follows them when the view
    is [terminated]; when it is not, a read that needs the byte after the
    last one leaves the view. *)
Fixpoint scan (terminated : bool) (fuel : nat) (file : string) (Line : string)
  (LineNumber : N) (st : Loop) : option Scan :=
  match fuel with
  | O => None
  | S fuel' =>
      match strchr Line LF with
      | None =>
          if (negb terminated && strchr_reads_end Line LF)%bool
          then Some (RanOff st)
          else Some (Finished st)
      | Some LineFeed =>
          if ((0 <? Max opts) && (Max opts <=? LSymbolized st))%bool
          then Some (Finished (loop_say st (HitMaximum (Max opts))))
          else if LineNumber <? Skip opts
          then scan terminated fuel' file Line (incr LineNumber) st
          else if (negb terminated && strtoull_reads_end Line 16)%bool
          then Some (RanOff st)
          else
            let Address := strtoull Line 16 in
            let LastLine := Line in
            let Line := next LineFeed in
            match Symbolize api (LDbg st) Address (Style opts) with
            | (None, d) =>
                if (negb terminated && strchr_reads_end LastLine CR)%bool
                then Some (RanOff (asked st d))
                else
                  scan terminated fuel' file Line (incr LineNumber)
                    (line_failed st d
                       (SymbolizationFailed file LineNumber Address
                          (FailedLine LastLine LineFeed)))
            | (Some symbol, d) =>
                scan terminated fuel' file Line (incr LineNumber)
                  (line_symbolized st d (trace_line opts LineNumber symbol))
            end
      end
  end.

(** Enough fuel for any view: between two lines consumed the loop spins
    at most [Skip] times. *)
Definition scan_fuel (View : string) : nat :=
  (N.to_nat (Skip opts) + 1) * (String.length View + 1).

(** [SymbolizeFile]. An empty file cannot be mapped; the output cannot be
    created over a directory, nor over the input while it is mapped.
    [None] only if the fuel of the scan were too short. *)
Definition SymbolizeFile (w : World) (Input Output : string) : option (Outcome * World) :=
  match fs_lookup (WFs w) Input with
  | Some (File View) =>
      if decide (View = EmptyString) then Some (Done false, say CouldNotMap w)
      else
        let OutputIsStdout := bool_decide (Output = EmptyString) in
        let opened :=
          if OutputIsStdout then Some (WFs w)
          else match fs_lookup (WFs w) Output with
               | Some (Dir _) | Some Other => None
               | _ => if decide (Output = Input) then None
                      else Some (<[Output := File EmptyString]> (WFs w))
               end in
        match opened with
        | None => Some (Threw, w)
        | Some fs =>
            match scan (terminated View) (scan_fuel View) (filename Input) View 0
                    (loop_start (WDbg w)) with
            | Some (Finished st) => Some (Done true, commit w fs Output st)
            | Some (RanOff st) => Some (ReadPastView, ran_off w fs Output st)
            | None => None
            end
        end
  | _ => Some (Done false, say (CouldNotOpenInput Input) w)
  end.

(** The loop of [main] over the jobs: an existing output is passed over
    and the loop goes on. [Some t] is an early end of the process. *)
Fixpoint jobs_loop (dirO noO fileO stdO : bool) (total : N) (Inputs : list string)
  (w : World) : option (option Termination * World) :=
  match Inputs with
  | [] => Some (None, w)
  | Input :: rest =>
      if ends_with (filename Input) symbolizer_suffix then
        jobs_loop dirO noO fileO stdO total rest (say (Skipping Input) w)
      else
        let Output := output_path opts dirO noO fileO Input in
        if (negb stdO && fs_exists (WFs w) Output && negb (Overwrite opts))%bool then
          jobs_loop dirO noO fileO stdO total rest (say (AlreadyExists Output) w)
        else
          let w1 :=
            if (negb stdO && fs_exists (WFs w) Output)%bool
            then say (WillBeOverwritten Output) w else w in
          match SymbolizeFile w1 Input Output with
          | None => None
          | Some (Threw, w2) => Some (Some Uncaught, w2)
          | Some (ReadPastView, w2) => Some (Some Fault, w2)
          | Some (Done false, w2) => Some (None, say (ParsingFailed Input) w2)
          | Some (Done true, w2) =>
              let w3 := file_counted w2 in
              jobs_loop dirO noO fileO stdO total rest
                (say (FileDone (NumberFiles (WStats w3)) total Input) w3)
          end
  end.

(** [main], from the parsed options on. [InitOk] is the result of
    [DbgEng.Init]. *)
Definition main (InitOk : bool) (w : World) : option (Termination * World) :=
  let InputIsDirectory := is_directory (WFs w) (Input opts) in
  let OutputIsDirectory := is_directory (WFs w) (Output opts) in
  let OutputDoesntExist := negb (fs_exists (WFs w) (Output opts)) in
  let OutputIsFile := is_regular_file (WFs w) (Output opts) in
  let OutputIsStdout := bool_decide (Output opts = EmptyString) in
  if negb InitOk then Some (Exit EXIT_FAILURE, say InitFailed w)
  else
    let w1 :=
      if (InputIsDirectory && negb OutputIsDirectory && negb OutputIsStdout)%bool
      then say BadOutputForDirectory w else w in
    let Inputs := enumerate (WFs w) opts in
    match jobs_loop OutputIsDirectory OutputDoesntExist OutputIsFile OutputIsStdout
            (N.of_nat (length Inputs)) Inputs (say StartingToProcess w1) with
    | None => None
    | Some (Some t, w2) => Some (t, w2)
    | Some (None, w2) => Some (Exit EXIT_SUCCESS, say (Completed (WStats w2)) w2)
    end.

End WithApi.
End Mapped.

(** * The first revision: one trace, [class Debugger] *)

Module Legacy.

Definition FAILED_SYMBOLIZATION : string := "FAILED SYMBOLIZATION".

Section WithApi.
Variable api : Api.
Variable opts : Opts_t.

(** [Debugger::Symbolize]: one style only, the full symbol. *)
Definition Symbolize (d : DbgEng_t) (SymbolAddress : N) : option string * DbgEng_t :=
  match Cache_ d !! SymbolAddress with
  | Some s => (Some s, d)
  | None =>
      let asked := Queries_ d ++ [(FullSymbol, SymbolAddress)] in
      match GetNameByOffset api (Queries_ d) SymbolAddress with
      | None => (None, {| Cache_ := Cache_ d; Queries_ := asked |})
      | Some (Buffer, Displacement) =>
          let c := emplace SymbolAddress (Buffer +:+ "+0x" +:+ to_hex Displacement)
                     (Cache_ d) in
          (c !! SymbolAddress, {| Cache_ := c; Queries_ := asked |})
      end
  end.

(** The [for] loop of [main]: [Max] bounds the index of the line. *)
Fixpoint read_loop (lines : list string) (Idx : N) (st : Loop) : Loop :=
  match lines with
  | [] => st
  | Line :: rest =>
      if Max opts <=? Idx then loop_say st (HitMaximum (Max opts))
      else if Idx <? Skip opts then read_loop rest (incr Idx) st
      else
        let Address := strtoull Line 0 in
        match Symbolize (LDbg st) Address with
        | (None, d) =>
            read_loop rest (incr Idx)
              {| LDbg := d; LSymbolized := LSymbolized st;
                 LFailed := incr (LFailed st);
                 LEvents := LEvents st
                   ++ [Printed (SymbolizationFailed EmptyString Idx Address Line);
                       Written (FAILED_SYMBOLIZATION +:+ nl)] |}
        | (Some symbol, d) =>
            read_loop rest (incr Idx)
              (line_symbolized st d [Written (symbol +:+ nl)])
        end
  end.

End WithApi.
End Legacy.

(** * A small engine to run the program on

    One module, "nt", mapped at 0x1000 for 0x1000 bytes, with one public
    symbol at its base; nothing else resolves. *)

Definition in_nt (a : N) : bool := (4096 <=? a) && (a <? 8192).

Definition nt_api : Api :=
  {| GetModuleByOffset := fun _ a => if in_nt a then Some (0, 4096) else None;
     GetModuleNameString := fun _ _ _ => Some "nt"%string;
     GetNameByOffset := fun _ a =>
       if in_nt a then Some ("nt!KiPageFault"%string, a - 4096) else None |}.

(** An engine that names every address. *)
Definition total_api : Api :=
  {| GetModuleByOffset := fun _ a => Some (0, 0);
     GetModuleNameString := fun _ _ _ => Some "mem"%string;
     GetNameByOffset := fun _ a => Some ("mem"%string, a) |}.

Definition default_opts : Opts_t :=
  {| Input := "trace.txt"; Output := EmptyString; CrashdumpPath := "mem.dmp";
     Skip := 0; Max := 20000000; Style := FullSymbol;
     Overwrite := false; LineNumbers := false |}.

Definition no_stats : Stats_t :=
  {| NumberSymbolizedLines := 0; NumberFailedSymbolization := 0; NumberFiles := 0 |}.

Definition boot (fs : gmap string Node) : World :=
  {| WDbg := fresh; WStats := no_stats; WFs := fs; WStdout := [] |}.

(** * Notions used to state the properties *)

(** An engine whose answers do not depend on the earlier requests. *)
Definition stateless (api : Api) : Prop :=
  forall h q, SymbolResolver api h q = SymbolResolver api [] q.

(** The cache and the request log agree, for a run under one style. *)
Definition coherent (api : Api) (style : TraceStyle_t) (d : DbgEng_t) : Prop :=
  forall a,
    (forall s, Cache_ d !! a = Some s ->
       SymbolResolver api [] (style, a) = Some s
       /\ invocations a (Queries_ d) = 1%nat)
    /\ (Cache_ d !! a = None -> (0 < invocations a (Queries_ d))%nat ->
        SymbolResolver api [] (style, a) = None).

(** An engine that answers every request. *)
Definition always_resolves (api : Api) : Prop :=
  forall h q, SymbolResolver api h q <> None.

(** The steps 4 to 6 of the per-file algorithm of the specification, for
    a list of lines all of which are to be processed: parse, resolve; on
    success write the formatted line and count it; on failure write
    nothing, count the failure, and go on. [base] is the base handed to
    the parser and [text] gives the text shown in the failure message. *)
Fixpoint per_line (api : Api) (opts : Opts_t) (base : N) (text : string -> string)
  (file : string) (lines : list string) (LineNumber : N) (st : Loop) : Loop :=
  match lines with
  | [] => st
  | Line :: rest =>
      let Address := strtoull Line base in
      match Symbolize api (LDbg st) Address (Style opts) with
      | (None, d) =>
          per_line api opts base text file rest (LineNumber + 1)
            (line_failed st d (SymbolizationFailed file LineNumber Address (text Line)))
      | (Some symbol, d) =>
          per_line api opts base text file rest (LineNumber + 1)
            (line_symbolized st d (trace_line opts LineNumber symbol))
      end
  end.

(** The answers a list of addresses gets, one call after the other. *)
Fixpoint resolve_each (api : Api) (style : TraceStyle_t) (d : DbgEng_t) (addrs : list N)
  : list (option string) :=
  match addrs with
  | [] => []
  | a :: rest =>
      (Symbolize api d a style).1
        :: resolve_each api style (Symbolize api d a style).2 rest
  end.

(** The trace a list of answers amounts to: a line per success, nothing
    per failure. *)
Fixpoint rendered (opts : Opts_t) (LineNumber : N) (answers : list (option string))
  : string :=
  match answers with
  | [] => EmptyString
  | Some symbol :: rest =>
      written (trace_line opts LineNumber symbol) +:+ rendered opts (LineNumber + 1) rest
  | None :: rest => rendered opts (LineNumber + 1) rest
  end.

Definition successes (answers : list (option string)) : nat :=
  length (filter (fun o : option string => is_Some o) answers).

Definition failures (answers : list (option string)) : nat :=
  length (filter (fun o : option string => o = None) answers).

(** Two loop states that differ at most by messages of the program. *)
Definition same_trace (s1 s2 : Loop) : Prop :=
  LDbg s1 = LDbg s2 /\ LSymbolized s1 = LSymbolized s2
  /\ LFailed s1 = LFailed s2 /\ written (LEvents s1) = written (LEvents s2).

(** The pointers at which the line-feed-terminated lines of a view start.
    [later_lines s] is [None] when no line feed can be reached from [s],
    and otherwise lists the lines after the one [s] is in. *)
Fixpoint later_lines (s : string) : option (list string) :=
  match s with
  | EmptyString => None
  | String c r =>
      if Ascii.eqb c LF then
        Some (match later_lines r with Some ls => r :: ls | None => [] end)
      else if Ascii.eqb c NUL then None
      else later_lines r
  end.

Definition view_lines (s : string) : list string :=
  match later_lines s with
  | Some ls => s :: ls
  | None => []
  end.

(** The text the memory-mapped revision shows for a failed line. *)
Definition failed_text (Line : string) : string :=
  match strchr Line LF with
  | Some LineFeed => Mapped.FailedLine Line LineFeed
  | None => EmptyString
  end.

(** The output of a job can be created: the standard output, or a path
    other than the input that is free or names a regular file. *)
Definition creatable (fs : gmap string Node) (Input Output : string) : Prop :=
  Output = EmptyString
  \/ (Output <> Input
      /\ (fs_lookup fs Output = None \/ exists old, fs_lookup fs Output = Some (File old))).

(** The file system once the output has been opened. *)
Definition opened (fs : gmap string Node) (Output : string) : gmap string Node :=
  if decide (Output = EmptyString) then fs else <[Output := File EmptyString]> fs.

(** The options with another [Skip] and [Max]. *)
Definition with_window (opts : Opts_t) (skip max : N) : Opts_t :=
  {| Input := Input opts; Output := Output opts; CrashdumpPath := CrashdumpPath opts;
     Skip := skip; Max := max; Style := Style opts;
     Overwrite := Overwrite opts; LineNumbers := LineNumbers opts |}.

(** The number a run of digits denotes in a base, read left to right. *)
Definition digits_value (base : N) (ds : string) : N :=
  fold_left (fun acc c => acc * base + default 0 (digit_value c))
    (list_ascii_of_string ds) 0.

(** Every character of [ds] is a digit of [base]. *)
Definition all_digits (base : N) (ds : string) : Prop :=
  Forall (fun c => is_digit_in base c = true) (list_ascii_of_string ds).

(** [s] does not go on with a digit of [base]. *)
Definition no_digit_ahead (base : N) (s : string) : Prop :=
  match s with
  | String c _ => is_digit_in base c = false
  | EmptyString => True
  end.

(** The text once blanks and one optional sign are passed. *)
Definition after_sign (s : string) : string := (split_sign (skip_space s)).2.

(** A directory of two traces and an existing regular file. *)
Definition two_traces : gmap string Node :=
  {[ "traces"%string := Dir ["a.txt"; "b.txt"]%string;
     "traces\a.txt"%string := File ("0x1000" +:+ nl);
     "traces\b.txt"%string := File ("0x1800" +:+ nl +:+ "garbage" +:+ nl);
     "out.txt"%string := File "old" ]}.

Definition directory_to_file : Opts_t :=
  {| Input := "traces"; Output := "out.txt"; CrashdumpPath := "mem.dmp";
     Skip := 0; Max := 20000000; Style := FullSymbol;
     Overwrite := true; LineNumbers := false |}.

(** A directory whose only entry is a directory, and an output directory
    that already holds a file under the name generated for that entry. *)
Definition nested : gmap string Node :=
  {[ "in"%string := Dir ["sub"%string];
     "in\sub"%string := Dir [];
     "out"%string := Dir ["sub.symbolizer"%string];
     "out\sub.symbolizer"%string := File "old" ]}.

Definition directory_to_directory : Opts_t :=
  {| Input := "in"; Output := "out"; CrashdumpPath := "mem.dmp";
     Skip := 0; Max := 20000000; Style := FullSymbol;
     Overwrite := true; LineNumbers := false |}.

(** The text ends with a line feed. *)
Fixpoint ends_with_lf (s : string) : bool :=
  match s with
  | EmptyString => false
  | String c EmptyString => Ascii.eqb c LF
  | String _ r => ends_with_lf r
  end.



(** The engine objects a run under one style can reach from the start. *)
Definition reached (api : Api) (style : TraceStyle_t) (d : DbgEng_t) : Prop :=
  exists addrs, d = Symbolize_all api fresh (map (pair style) addrs).

(** The loop state when the loop is left: by the ceiling, which is
    announced, or for want of lines. *)
Definition stopped (opts : Opts_t) (early : bool) (st : Loop) : Loop :=
  if early then loop_say st (HitMaximum (Max opts)) else st.

(** What the lines processed amount to on the standard output when it is
    the sink, given the answers they got: the formatted line of each
    success and the message about each failure, in the order of the
    lines. [base] and [text] are as in [per_line]. *)
Fixpoint line_events (opts : Opts_t) (file : string) (base : N) (text : string -> string)
  (LineNumber : N) (lines : list string) (answers : list (option string)) : list Event :=
  match lines, answers with
  | Line :: ls, Some symbol :: rest =>
      trace_line opts LineNumber symbol
        ++ line_events opts file base text (LineNumber + 1) ls rest
  | Line :: ls, None :: rest =>
      Printed (SymbolizationFailed file LineNumber (strtoull Line base) (text Line))
        :: line_events opts file base text (LineNumber + 1) ls rest
  | _, _ => []
  end.


(** The answers the lines of a trace get, parsed in [base], one call
    after the other from the engine object [d]. *)
Definition answers_of (api : Api) (opts : Opts_t) (base : N) (d : DbgEng_t)
  (lines : list string) : list (option string) :=
  resolve_each api (Style opts) d (map (fun l => strtoull l base) lines).

(** The loop state a scan of a view ends with. *)
Definition scan_state (r : Mapped.Scan) : Loop :=
  match r with
  | Mapped.Finished st => st
  | Mapped.RanOff st => st
  end.

(** The calls a loop makes on the engine object [d], leading to [d']:
    the first is for the address [first]. *)
Definition resolves_first (api : Api) (style : TraceStyle_t) (d : DbgEng_t) (first : N)
  (d' : DbgEng_t) : Prop :=
  exists addrs, d' = Symbolize_all api d (map (pair style) (first :: addrs)).

(** One trace, and the options that name it as its own output. *)
Definition one_trace : gmap string Node :=
  {[ "a.txt"%string := File ("0x1000" +:+ nl) ]}.

Definition in_place : Opts_t :=
  {| Input := "a.txt"; Output := "a.txt"; CrashdumpPath := "mem.dmp";
     Skip := 0; Max := 20000000; Style := FullSymbol;
     Overwrite := true; LineNumbers := false |}.

(** The options with another [Overwrite]. *)
Definition with_overwrite (opts : Opts_t) (overwrite : bool) : Opts_t :=
  {| Input := Input opts; Output := Output opts; CrashdumpPath := CrashdumpPath opts;
     Skip := Skip opts; Max := Max opts; Style := Style opts;
     Overwrite := overwrite; LineNumbers := LineNumbers opts |}.

(** Is there a NUL among the bytes? *)
Fixpoint has_nul (s : string) : bool :=
  match s with
  | String a r => (Ascii.eqb a NUL || has_nul r)%bool
  | EmptyString => false
  end.

(** [n] copies of a text, one after the other. *)
Fixpoint copies (n : nat) (s : string) : string :=
  match n with
  | O => EmptyString
  | S m => s +:+ copies m s
  end.

(** A trace that fills one page exactly: 512 lines of 8 bytes. *)
Definition full_page : string := copies 512 ("0001000" +:+ nl).

(** * Properties *)

(** ** The cache *)

Section CacheFacts.
Variable api : Api.

Lemma emplace_lookup_same k v (m : gmap N string) :
  m !! k = None -> emplace k v m !! k = Some v.
Proof.
  intros Hk. unfold emplace. rewrite Hk. apply lookup_insert_eq.
Qed.

Lemma emplace_keeps k v (m : gmap N string) a s :
  m !! a = Some s -> emplace k v m !! a = Some s.
Proof.
  intros Ha. unfold emplace. destruct (m !! k) eqn:Hk; [exact Ha|].
  rewrite lookup_insert_ne; [exact Ha|]. intros ->. congruence.
Qed.

(** The three ways a call can go. *)
Lemma Symbolize_inv d a style r d' :
  Symbolize api d a style = (r, d') ->
  (exists s, Cache_ d !! a = Some s /\ r = Some s /\ d' = d)
  \/ (Cache_ d !! a = None /\ SymbolResolver api (Queries_ d) (style, a) = None
      /\ r = None
      /\ d' = {| Cache_ := Cache_ d; Queries_ := Queries_ d ++ [(style, a)] |})
  \/ (exists s, Cache_ d !! a = None
      /\ SymbolResolver api (Queries_ d) (style, a) = Some s
      /\ r = Some s
      /\ d' = {| Cache_ := <[a := s]> (Cache_ d);
                 Queries_ := Queries_ d ++ [(style, a)] |}).
Proof.
  unfold Symbolize, SymbolResolver. simpl.
  destruct (Cache_ d !! a) as [s|] eqn:Hc.
  - intros [= <- <-]. left. eauto.
  - destruct (match style with
              | Modoff => SymbolizeModoff api (Queries_ d) a
              | FullSymbol => SymbolizeFull api (Queries_ d) a
              end) as [s|] eqn:Hres.
    + intros [= <- <-]. right. right. exists s.
      rewrite emplace_lookup_same by exact Hc.
      unfold emplace. rewrite Hc. auto.
    + intros [= <- <-]. right. left. auto.
Qed.

Lemma Symbolize_hit d a style s :
  Cache_ d !! a = Some s -> Symbolize api d a style = (Some s, d).
Proof. intros Hc. unfold Symbolize. rewrite Hc. reflexivity. Qed.

(** A successful call leaves its answer in the cache. *)
Lemma Symbolize_some_cached d a style s d' :
  Symbolize api d a style = (Some s, d') -> Cache_ d' !! a = Some s.
Proof.
  intros H. apply Symbolize_inv in H.
  destruct H as [(s' & Hc & [= <-] & ->)|[(_ & _ & [=] & _)|(s' & Hc & _ & [= <-] & ->)]].
  - exact Hc.
  - simpl. apply lookup_insert_eq.
Qed.

(** No call removes or replaces an entry. *)
Lemma Symbolize_keeps d a s a' style :
  Cache_ d !! a = Some s -> Cache_ (Symbolize api d a' style).2 !! a = Some s.
Proof.
  intros Ha. destruct (Symbolize api d a' style) as [r d'] eqn:H.
  apply Symbolize_inv in H. simpl.
  destruct H as [(s' & _ & _ & ->)|[(_ & _ & _ & ->)|(s' & Hc & _ & _ & ->)]];
    simpl; try exact Ha.
  rewrite lookup_insert_ne; [exact Ha|]. intros ->. congruence.
Qed.

(** Nor does a call on a cached address reach the engine for it. *)
Lemma Symbolize_invocations d a s a' style :
  Cache_ d !! a = Some s ->
  invocations a (Queries_ (Symbolize api d a' style).2) = invocations a (Queries_ d).
Proof.
  intros Ha. destruct (Symbolize api d a' style) as [r d'] eqn:H.
  apply Symbolize_inv in H. simpl.
  assert (Hne : Cache_ d !! a' = None -> a' <> a) by (intros Hn ->; congruence).
  unfold invocations.
  destruct H as [(s' & _ & _ & ->)|[(Hc & _ & _ & ->)|(s' & Hc & _ & _ & ->)]];
    simpl; [reflexivity| |];
    rewrite filter_app, length_app, filter_cons_False by (simpl; auto);
    rewrite filter_nil; simpl; lia.
Qed.

Lemma Symbolize_all_keeps calls : forall d a s,
  Cache_ d !! a = Some s ->
  Cache_ (Symbolize_all api d calls) !! a = Some s
  /\ invocations a (Queries_ (Symbolize_all api d calls)) = invocations a (Queries_ d).
Proof.
  induction calls as [|[style a'] rest IH]; intros d a s Ha; simpl; [auto|].
  destruct (IH (Symbolize api d a' style).2 a s) as [Hc Hn].
  - apply Symbolize_keeps, Ha.
  - split; [exact Hc|]. rewrite Hn. apply Symbolize_invocations with s, Ha.
Qed.

End CacheFacts.

(** *** The whole run, for an engine without memory

    With one style for the run (the global [Opts.Style]) and an engine
    whose answers do not depend on earlier requests, an address never
    succeeds after having failed: every cached address was asked for
    exactly once since the start. *)

Lemma invocations_snoc a style a' h :
  invocations a (h ++ [(style, a')])
  = (invocations a h + if decide (a' = a) then 1 else 0)%nat.
Proof.
  unfold invocations. rewrite filter_app, length_app. f_equal.
  destruct (decide (a' = a)) as [->|Hne].
  - rewrite filter_cons_True by reflexivity. reflexivity.
  - rewrite filter_cons_False by (simpl; auto). reflexivity.
Qed.

Lemma coherent_fresh api style : coherent api style fresh.
Proof.
  intros a. split.
  - intros s Hs. simpl in Hs. rewrite lookup_empty in Hs. discriminate.
  - simpl. unfold invocations. rewrite filter_nil. simpl. lia.
Qed.

Lemma coherent_step api style d a' :
  stateless api -> coherent api style d ->
  coherent api style (Symbolize api d a' style).2.
Proof.
  intros Hst Hco. destruct (Symbolize api d a' style) as [r d'] eqn:H.
  apply Symbolize_inv in H. simpl.
  destruct H as [(s & _ & _ & ->)|[(Hc & Hr & _ & ->)|(s & Hc & Hr & _ & ->)]];
    [exact Hco| |]; rewrite Hst in Hr; intros a; destruct (Hco a) as [H1 H2];
    simpl; rewrite invocations_snoc.
  - destruct (decide (a' = a)) as [->|Hne].
    + split; [intros s Hs; congruence|auto].
    + split.
      * intros s Hs. destruct (H1 s Hs). split; [assumption|lia].
      * intros Hn Hpos. apply H2; [exact Hn|lia].
  - destruct (decide (a' = a)) as [->|Hne].
    + rewrite lookup_insert_eq. split; [|discriminate].
      intros s' [= <-]. split; [exact Hr|].
      destruct (invocations a (Queries_ d)) eqn:Hz; [reflexivity|].
      rewrite H2 in Hr by (auto; lia). discriminate.
    + rewrite lookup_insert_ne by exact Hne. split.
      * intros s' Hs. destruct (H1 s' Hs). split; [assumption|lia].
      * intros Hn Hpos. apply H2; [exact Hn|lia].
Qed.

Lemma coherent_all api style addrs : forall d,
  stateless api -> coherent api style d ->
  coherent api style (Symbolize_all api d (map (pair style) addrs)).
Proof.
  induction addrs as [|a rest IH]; intros d Hst Hco; simpl; [exact Hco|].
  apply IH; [exact Hst|]. apply coherent_step; assumption.
Qed.

Lemma Symbolize_asked_once api style addrs a s :
  stateless api ->
  Cache_ (Symbolize_all api fresh (map (pair style) addrs)) !! a = Some s ->
  invocations a (Queries_ (Symbolize_all api fresh (map (pair style) addrs))) = 1%nat.
Proof.
  intros Hst Hs.
  destruct (coherent_all api style addrs fresh Hst (coherent_fresh api style) a) as [H _].
  apply (H s Hs).
Qed.

(** C1 -- cache idempotence. Once a call for an address has succeeded,
    whatever calls follow (any addresses, any styles), a further call for
    that address returns the very same string and leaves the object as it
    is: the engine is not asked again, and it was asked at most once for
    that address from the successful call on. Over a whole run under one
    style, with an engine whose answers do not depend on earlier requests,
    an address found in the cache has been asked for exactly once since
    the start. *)
Theorem Symbolize_cache_idempotent
  (api : Api) (d : DbgEng_t) (a : N) (style : TraceStyle_t) (str : string)
  (d1 : DbgEng_t) (calls : list Query) (style' : TraceStyle_t) :
  Symbolize api d a style = (Some str, d1) ->
  Symbolize api (Symbolize_all api d1 calls) a style'
    = (Some str, Symbolize_all api d1 calls)
  /\ invocations a (Queries_ (Symbolize_all api d1 calls))
     = invocations a (Queries_ d1)
  /\ (invocations a (Queries_ d1) <= invocations a (Queries_ d) + 1)%nat
  /\ (stateless api ->
      forall addrs,
        is_Some (Cache_ (Symbolize_all api fresh (map (pair style) addrs)) !! a) ->
        invocations a (Queries_ (Symbolize_all api fresh (map (pair style) addrs)))
        = 1%nat).
Proof.
  intros H.
  pose proof (Symbolize_some_cached api _ _ _ _ _ H) as Hc.
  destruct (Symbolize_all_keeps api calls d1 a str Hc) as [Hc2 Hn].
  split; [apply Symbolize_hit, Hc2|]. split; [exact Hn|]. split.
  - apply Symbolize_inv in H. unfold invocations.
    destruct H as [(s & _ & _ & ->)|[(_ & _ & [=] & _)|(s & _ & _ & _ & ->)]]; simpl.
    + lia.
    + rewrite filter_app, length_app, filter_cons_True by reflexivity.
      rewrite filter_nil. simpl. lia.
  - intros Hst addrs [s Hs]. eapply Symbolize_asked_once; eauto.
Qed.

Lemma nt_api_stateless : stateless nt_api.
Proof. intros h [[] a]; reflexivity. Qed.

Lemma Symbolize_cache_idempotent_witness :
  let d1 := (Symbolize nt_api fresh 4112 FullSymbol).2 in
  let d2 := Symbolize_all nt_api d1 [(Modoff, 4112); (FullSymbol, 5000); (Modoff, 3)] in
  let run := Symbolize_all nt_api fresh (map (pair FullSymbol) [3; 4112; 3; 4112; 5000]) in
  Symbolize nt_api d2 4112 Modoff = (Some "nt!KiPageFault+0x10"%string, d2)
  /\ invocations 4112 (Queries_ d2) = invocations 4112 (Queries_ d1)
  /\ (invocations 4112 (Queries_ d1) <= invocations 4112 (Queries_ fresh) + 1)%nat
  /\ invocations 4112 (Queries_ run) = 1%nat.
Proof.
  intros d1 d2 run.
  destruct (Symbolize_cache_idempotent nt_api fresh 4112 FullSymbol
              "nt!KiPageFault+0x10" d1
              [(Modoff, 4112); (FullSymbol, 5000); (Modoff, 3)] Modoff)
    as (H1 & H2 & H3 & H4).
  - vm_compute. reflexivity.
  - split; [exact H1|]. split; [exact H2|]. split; [exact H3|].
    apply (H4 nt_api_stateless [3; 4112; 3; 4112; 5000]).
    vm_compute. eauto.
Defined.

(** C2 -- no negative caching. A failed call leaves the cache as it was
    and has asked the engine; the next call for the same address, under
    any style, asks the engine again. *)
Theorem Symbolize_no_negative_caching
  (api : Api) (d : DbgEng_t) (a : N) (style : TraceStyle_t) (d1 : DbgEng_t) :
  Symbolize api d a style = (None, d1) ->
  Cache_ d1 = Cache_ d
  /\ Queries_ d1 = Queries_ d ++ [(style, a)]
  /\ forall style2,
       Queries_ (Symbolize api d1 a style2).2 = Queries_ d1 ++ [(style2, a)].
Proof.
  intros H. apply Symbolize_inv in H.
  destruct H as [(s & _ & [=] & _)|[(Hc & _ & _ & ->)|(s & _ & _ & [=] & _)]].
  simpl. split; [reflexivity|]. split; [reflexivity|].
  intros style2.
  destruct (Symbolize api _ a style2) as [r d2] eqn:H2.
  apply Symbolize_inv in H2. simpl in H2. simpl.
  destruct H2 as [(s & Hs & _)|[(_ & _ & _ & ->)|(s & _ & _ & _ & ->)]];
    [congruence|reflexivity|reflexivity].
Qed.

Lemma Symbolize_no_negative_caching_witness :
  let d1 := (Symbolize nt_api fresh 0 FullSymbol).2 in
  Cache_ d1 = Cache_ fresh
  /\ Queries_ d1 = Queries_ fresh ++ [(FullSymbol, 0)]
  /\ forall style2,
       Queries_ (Symbolize nt_api d1 0 style2).2 = Queries_ d1 ++ [(style2, 0)].
Proof.
  intros d1.
  apply (Symbolize_no_negative_caching nt_api fresh 0 FullSymbol d1).
  vm_compute. reflexivity.
Defined.

(** C4, as stated, fails: after address 0x1010 has been resolved in the
    module+offset style, a call in the full-symbol style is served from
    the cache with the module+offset string, and the engine, which would
    have answered otherwise, is not asked. *)
Lemma Symbolize_style_counterexample :
  let d1 := (Symbolize nt_api fresh 4112 Modoff).2 in
  (Symbolize nt_api fresh 4112 Modoff).1 = Some "nt+0x10"%string
  /\ SymbolResolver nt_api (Queries_ d1) (FullSymbol, 4112)
     = Some "nt!KiPageFault+0x10"%string
  /\ Symbolize nt_api d1 4112 FullSymbol = (Some "nt+0x10"%string, d1)
  /\ Queries_ (Symbolize nt_api d1 4112 FullSymbol).2 = [(Modoff, 4112)].
Proof. vm_compute. repeat split; reflexivity. Qed.

(** C4, amended -- the memoization key is the address alone. A call is
    served without the engine exactly when its address is in the cache,
    whatever the style; so after a success for an address, a call for it
    under any style returns the stored string and asks nothing. *)
Theorem Symbolize_key_is_address
  (api : Api) (d : DbgEng_t) (a : N) (style style' : TraceStyle_t) :
  (Queries_ (Symbolize api d a style).2 = Queries_ d <-> is_Some (Cache_ d !! a))
  /\ forall str d1,
       Symbolize api d a style = (Some str, d1) ->
       Symbolize api d1 a style' = (Some str, d1).
Proof.
  split.
  - destruct (Symbolize api d a style) as [r d'] eqn:H.
    apply Symbolize_inv in H. simpl.
    destruct H as [(s & Hs & _ & ->)|[(Hc & _ & _ & ->)|(s & Hc & _ & _ & ->)]]; simpl.
    + rewrite Hs. split; eauto.
    + rewrite Hc. split.
      * intros E. apply (f_equal length) in E. rewrite length_app in E.
        simpl in E. lia.
      * intros [? [=]].
    + rewrite Hc. split.
      * intros E. apply (f_equal length) in E. rewrite length_app in E.
        simpl in E. lia.
      * intros [? [=]].
  - intros str d1 H. apply Symbolize_hit. eapply Symbolize_some_cached, H.
Qed.

Lemma Symbolize_key_is_address_witness :
  let d1 := (Symbolize nt_api fresh 4112 Modoff).2 in
  (Queries_ (Symbolize nt_api fresh 4112 Modoff).2 = Queries_ fresh
   <-> is_Some (Cache_ fresh !! 4112))
  /\ Symbolize nt_api d1 4112 FullSymbol = (Some "nt+0x10"%string, d1).
Proof.
  intros d1.
  destruct (Symbolize_key_is_address nt_api fresh 4112 Modoff FullSymbol) as [H1 H2].
  split; [exact H1|]. apply H2. vm_compute. reflexivity.
Defined.

(** ** Arithmetic of the counters *)

Lemma u64_small x : x < U64_MOD -> u64 x = x.
Proof. intros H. unfold u64. apply N.mod_small, H. Qed.

Lemma incr_small x : x + 1 < U64_MOD -> incr x = x + 1.
Proof. intros H. unfold incr. apply u64_small, H. Qed.

Lemma incr_le x : incr x <= x + 1.
Proof.
  unfold incr, u64. apply N.Div0.mod_le.
Qed.

Lemma append_cons c (r s : string) : String c r +:+ s = String c (r +:+ s).
Proof. reflexivity. Qed.

Lemma append_nil_l (s : string) : EmptyString +:+ s = s.
Proof. reflexivity. Qed.

Lemma append_assoc (s1 s2 s3 : string) : (s1 +:+ s2) +:+ s3 = s1 +:+ (s2 +:+ s3).
Proof.
  induction s1 as [|c r IH]; [reflexivity|].
  rewrite !append_cons, IH. reflexivity.
Qed.

Lemma append_nil_r (s : string) : s +:+ EmptyString = s.
Proof.
  induction s as [|c r IH]; [reflexivity|]. rewrite append_cons, IH. reflexivity.
Qed.

Lemma written_app e1 e2 : written (e1 ++ e2) = written e1 +:+ written e2.
Proof.
  induction e1 as [|[t|m] r IH]; simpl; [reflexivity| |exact IH].
  rewrite IH. symmetry. apply append_assoc.
Qed.

Lemma written_trace_line_say st m :
  written (LEvents (loop_say st m)) = written (LEvents st).
Proof.
  simpl. rewrite written_app. simpl. apply append_nil_r.
Qed.

Lemma same_trace_refl st : same_trace st st.
Proof. repeat split. Qed.

Lemma same_trace_say st m : same_trace (loop_say st m) st.
Proof.
  repeat split. apply written_trace_line_say.
Qed.

(** With an engine that answers everything, every call succeeds. *)
Lemma Symbolize_always api d a style :
  always_resolves api ->
  exists s d', Symbolize api d a style = (Some s, d').
Proof.
  intros Hall. destruct (Symbolize api d a style) as [r d'] eqn:H.
  pose proof H as H'. apply Symbolize_inv in H'.
  destruct H' as [(s & _ & -> & _)|[(_ & Hr & _)|(s & _ & _ & -> & _)]]; eauto.
  exfalso. exact (Hall _ _ Hr).
Qed.

(** ** The getline revision: skip and max *)

Section StreamWindow.
Variable api : Api.
Variable opts : Opts_t.
Variable file : string.

Local Abbreviation read_loop := (Stream.read_loop api opts file).

(** While the index is below [Skip] the lines are dropped. *)
Lemma read_loop_skip lines : forall L st,
  Skip opts < U64_MOD -> LSymbolized st < Max opts -> L <= Skip opts ->
  read_loop lines L st
  = read_loop (drop (N.to_nat (Skip opts - L)) lines) (Skip opts) st.
Proof.
  induction lines as [|l rest IH]; intros L st Hk Hm HL.
  - rewrite drop_nil. reflexivity.
  - destruct (N.eq_dec L (Skip opts)) as [->|Hne].
    + rewrite N.sub_diag. reflexivity.
    + simpl.
      destruct (N.leb_spec (Max opts) (LSymbolized st)); [lia|].
      destruct (N.ltb_spec L (Skip opts)); [|lia].
      rewrite incr_small by lia.
      rewrite IH by lia.
      replace (N.to_nat (Skip opts - L)) with (S (N.to_nat (Skip opts - (L + 1)))) by lia.
      reflexivity.
Qed.

End StreamWindow.

(** ** The memory-mapped revision: lines of a view, and fuel *)

Lemma later_lines_strchr s :
  match strchr s LF with
  | Some lf => later_lines s = Some (view_lines (next lf))
  | None => later_lines s = None
  end.
Proof.
  induction s as [|c r IH]; simpl; [reflexivity|].
  destruct (Ascii.eqb c LF) eqn:Hc; simpl.
  - unfold view_lines. destruct (later_lines r); reflexivity.
  - destruct (Ascii.eqb c NUL); [reflexivity|exact IH].
Qed.

Lemma view_lines_strchr_some s lf :
  strchr s LF = Some lf -> view_lines s = s :: view_lines (next lf).
Proof.
  intros H. pose proof (later_lines_strchr s) as E. rewrite H in E.
  unfold view_lines at 1. rewrite E. reflexivity.
Qed.

Lemma view_lines_strchr_none s :
  strchr s LF = None -> view_lines s = [].
Proof.
  intros H. pose proof (later_lines_strchr s) as E. rewrite H in E.
  unfold view_lines. rewrite E. reflexivity.
Qed.

Lemma strchr_shorter s c lf :
  strchr s c = Some lf -> (String.length (next lf) < String.length s)%nat.
Proof.
  induction s as [|a r IH]; simpl; [discriminate|].
  destruct (Ascii.eqb a c).
  - intros [= <-]. simpl. lia.
  - destruct (Ascii.eqb a NUL); [discriminate|]. intros H. specialize (IH H). lia.
Qed.

Lemma view_lines_length s : (length (view_lines s) <= String.length s)%nat.
Proof.
  remember (String.length s) as n eqn:Hn. revert s Hn.
  induction n as [n IH] using lt_wf_ind. intros s ->.
  destruct (strchr s LF) as [lf|] eqn:H.
  - rewrite (view_lines_strchr_some s lf H). simpl.
    pose proof (strchr_shorter s LF lf H) as Hs.
    specialize (IH _ Hs (next lf) eq_refl). lia.
  - rewrite (view_lines_strchr_none s H). simpl. lia.
Qed.

Lemma failed_text_some Line lf :
  strchr Line LF = Some lf -> failed_text Line = Mapped.FailedLine Line lf.
Proof. intros H. unfold failed_text. rewrite H. reflexivity. Qed.

Section MappedScan.
Variable api : Api.
Variable opts : Opts_t.
Variable file : string.

Local Abbreviation scan := (Mapped.scan api opts).

(** The loop always comes to an end within its fuel. *)
Lemma scan_total terminated fuel : forall Line L st,
  Skip opts < U64_MOD ->
  (length (view_lines Line) * (N.to_nat (Skip opts) + 1)
   + N.to_nat (Skip opts - L) + 1 <= fuel)%nat ->
  exists r, scan terminated fuel file Line L st = Some r.
Proof.
  induction fuel as [|fuel IH]; intros Line L st Hk Hf; [lia|].
  simpl. destruct (strchr Line LF) as [lf|] eqn:Hlf;
    [|destruct (negb terminated && strchr_reads_end Line LF)%bool; eauto].
  rewrite (view_lines_strchr_some Line lf Hlf) in Hf. simpl in Hf.
  destruct ((0 <? Max opts) && (Max opts <=? LSymbolized st))%bool; [eauto|].
  destruct (N.ltb_spec L (Skip opts)) as [Hlt|Hge].
  - apply IH; [exact Hk|]. rewrite incr_small by lia.
    rewrite (view_lines_strchr_some Line lf Hlf). simpl. lia.
  - assert (Hany : forall L', (N.to_nat (Skip opts - L') <= N.to_nat (Skip opts))%nat)
      by (intros; lia).
    destruct (negb terminated && strtoull_reads_end Line 16)%bool; [eauto|].
    destruct (Symbolize api (LDbg st) (strtoull Line 16) (Style opts)) as [[s|] d'];
      [|destruct (negb terminated && strchr_reads_end Line CR)%bool; [eauto|]];
      (apply IH; [exact Hk|]; specialize (Hany (incr L)); lia).
Qed.

(** No read leaves a view that is followed by a zero byte. *)
Lemma scan_terminated fuel : forall Line L st r,
  scan true fuel file Line L st = Some r -> exists st', r = Mapped.Finished st'.
Proof.
  induction fuel as [|fuel IH]; intros Line L st r H; [discriminate|].
  simpl in H. destruct (strchr Line LF) as [lf|]; [|injection H as <-; eauto].
  destruct ((0 <? Max opts) && (Max opts <=? LSymbolized st))%bool;
    [injection H as <-; eauto|].
  destruct (L <? Skip opts); [eauto|].
  destruct (Symbolize api (LDbg st) (strtoull Line 16) (Style opts)) as [[s|] d']; eauto.
Qed.

Lemma scan_total_terminated fuel Line L st :
  Skip opts < U64_MOD ->
  (length (view_lines Line) * (N.to_nat (Skip opts) + 1)
   + N.to_nat (Skip opts - L) + 1 <= fuel)%nat ->
  exists st', scan true fuel file Line L st = Some (Mapped.Finished st').
Proof.
  intros Hk Hf. destruct (scan_total true fuel Line L st Hk Hf) as [r Hr].
  destruct (scan_terminated fuel Line L st r Hr) as [st' ->]. eauto.
Qed.

Lemma scan_fuel_enough View :
  (length (view_lines View) * (N.to_nat (Skip opts) + 1)
   + N.to_nat (Skip opts - 0) + 1 <= Mapped.scan_fuel opts View)%nat.
Proof.
  unfold Mapped.scan_fuel. pose proof (view_lines_length View).
  rewrite N.sub_0_r. nia.
Qed.


(** While the line number is below [Skip] the loop spins: the pointer
    does not move. *)
Lemma scan_spin terminated n : forall fuel Line L st lf,
  strchr Line LF = Some lf ->
  ((0 <? Max opts) && (Max opts <=? LSymbolized st))%bool = false ->
  Skip opts < U64_MOD -> L + N.of_nat n = Skip opts ->
  scan terminated (n + fuel) file Line L st = scan terminated fuel file Line (Skip opts) st.
Proof.
  induction n as [|n IH]; intros fuel Line L st lf Hlf Hm Hk HL.
  - simpl. replace L with (Skip opts) by lia. reflexivity.
  - simpl. rewrite Hlf, Hm.
    destruct (N.ltb_spec L (Skip opts)); [|lia].
    rewrite incr_small by lia. apply IH with lf; auto. lia.
Qed.

End MappedScan.

(** ** Failure accounting *)

Lemma successes_some s (r : list (option string)) :
  successes (Some s :: r) = S (successes r).
Proof. unfold successes. rewrite filter_cons_True by (simpl; eauto). reflexivity. Qed.

Lemma successes_none (r : list (option string)) : successes (None :: r) = successes r.
Proof. unfold successes. rewrite filter_cons_False by (simpl; intros [? [=]]). reflexivity. Qed.

Lemma failures_some s (r : list (option string)) : failures (Some s :: r) = failures r.
Proof. unfold failures. rewrite filter_cons_False by (simpl; congruence). reflexivity. Qed.

Lemma failures_none (r : list (option string)) : failures (None :: r) = S (failures r).
Proof. unfold failures. rewrite filter_cons_True by reflexivity. reflexivity. Qed.

Lemma per_line_account api opts base text file lines : forall L st,
  LSymbolized st + N.of_nat (length lines) < U64_MOD ->
  LFailed st + N.of_nat (length lines) < U64_MOD ->
  let addrs := map (fun l => strtoull l base) lines in
  let answers := resolve_each api (Style opts) (LDbg st) addrs in
  let st' := per_line api opts base text file lines L st in
  LDbg st' = Symbolize_all api (LDbg st) (map (pair (Style opts)) addrs)
  /\ LSymbolized st' = LSymbolized st + N.of_nat (successes answers)
  /\ LFailed st' = LFailed st + N.of_nat (failures answers)
  /\ written (LEvents st') = written (LEvents st) +:+ rendered opts L answers
  /\ LEvents st' = LEvents st ++ line_events opts file base text L lines answers.
Proof.
  induction lines as [|l rest IH]; intros L st Hs Hf; simpl.
  - unfold successes, failures. rewrite !filter_nil. simpl.
    rewrite append_nil_r, app_nil_r. repeat split; lia.
  - simpl in Hs, Hf.
    destruct (Symbolize api (LDbg st) (strtoull l base) (Style opts)) as [[s|] d'] eqn:E;
      simpl.
    + destruct (IH (L + 1) (line_symbolized st d' (trace_line opts L s)))
        as (H1 & H2 & H3 & H4 & H5);
        try (simpl; try rewrite incr_small by lia; lia).
      simpl in H1, H2, H3, H4, H5. rewrite H1, H2, H3, H4, H5.
      rewrite successes_some, failures_some.
      rewrite incr_small by lia. rewrite written_app, append_assoc.
      rewrite <- app_assoc. repeat split; lia.
    + destruct (IH (L + 1) (line_failed st d'
                  (SymbolizationFailed file L (strtoull l base) (text l))))
        as (H1 & H2 & H3 & H4 & H5);
        try (simpl; try rewrite incr_small by lia; lia).
      simpl in H1, H2, H3, H4, H5. rewrite H1, H2, H3, H4, H5.
      rewrite successes_none, failures_none.
      rewrite incr_small by lia. rewrite written_app. simpl written.
      rewrite append_nil_r. rewrite <- app_assoc.
      repeat split; lia.
Qed.

Lemma answers_split (answers : list (option string)) :
  (successes answers + failures answers = length answers)%nat.
Proof.
  induction answers as [|[s|] r IH]; [reflexivity| |].
  - rewrite successes_some, failures_some. simpl. lia.
  - rewrite successes_none, failures_none. simpl. lia.
Qed.

Lemma resolve_each_length api style addrs : forall d,
  length (resolve_each api style d addrs) = length addrs.
Proof.
  induction addrs as [|a r IH]; intros d; simpl; [reflexivity|].
  rewrite IH. reflexivity.
Qed.

Lemma answers_of_length api opts base d lines :
  length (answers_of api opts base d lines) = length lines.
Proof. unfold answers_of. rewrite resolve_each_length, length_map. reflexivity. Qed.



(** Whatever [Skip] and [Max] are, on a view followed by a zero byte the
    loop of the memory-mapped revision is the line-by-line reference on
    the first [n] lines of the view: it leaves when the ceiling is met,
    not before, and otherwise goes through all the lines. *)
Lemma scan_window api opts file fuel : forall Line L st,
  Skip opts <= L ->
  L + N.of_nat (length (view_lines Line)) < U64_MOD ->
  (length (view_lines Line) < fuel)%nat ->
  exists n,
    (n <= length (view_lines Line))%nat
    /\ Mapped.scan api opts true fuel file Line L st
       = Some (Mapped.Finished
                 (stopped opts (n <? length (view_lines Line))%nat
                    (per_line api opts 16 failed_text file (take n (view_lines Line))
                       L st)))
    /\ ((n < length (view_lines Line))%nat ->
        0 < Max opts
        /\ Max opts <= LSymbolized (per_line api opts 16 failed_text file
                                      (take n (view_lines Line)) L st))
    /\ (forall n', (n' < n)%nat ->
        Max opts = 0
        \/ LSymbolized (per_line api opts 16 failed_text file
                          (take n' (view_lines Line)) L st) < Max opts).
Proof.
  induction fuel as [|fuel IH]; intros Line L st HL Hw Hf; [lia|].
  simpl. destruct (strchr Line LF) as [lf|] eqn:Hlf.
  - rewrite (view_lines_strchr_some Line lf Hlf) in *. simpl in Hw, Hf.
    destruct ((0 <? Max opts) && (Max opts <=? LSymbolized st))%bool eqn:Hc.
    + exists 0%nat. split; [lia|]. split; [reflexivity|].
      apply andb_prop in Hc. destruct Hc as [Hc1 Hc2].
      apply N.ltb_lt in Hc1. apply N.leb_le in Hc2. split; [|lia].
      intros _. simpl. split; assumption.
    + assert (Hopen : Max opts = 0 \/ LSymbolized st < Max opts).
      { destruct (N.ltb_spec 0 (Max opts)); [|lia].
        destruct (N.leb_spec (Max opts) (LSymbolized st)); [discriminate|lia]. }
      destruct (N.ltb_spec L (Skip opts)); [lia|].
      rewrite incr_small by lia.
      destruct (Symbolize api (LDbg st) (strtoull Line 16) (Style opts))
        as [[s|] d'] eqn:E.
      * destruct (IH (next lf) (L + 1) (line_symbolized st d' (trace_line opts L s)))
          as (n & H1 & H2 & H3 & H4); try lia.
        exists (S n). split; [simpl; lia|]. split; [|split].
        { rewrite H2. simpl. rewrite E. reflexivity. }
        { intros Hn. simpl. rewrite E. apply H3. simpl in Hn. lia. }
        { intros [|m] Hm; [exact Hopen|]. simpl. rewrite E. apply H4. lia. }
      * destruct (IH (next lf) (L + 1)
                    (line_failed st d'
                       (SymbolizationFailed file L (strtoull Line 16)
                          (Mapped.FailedLine Line lf))))
          as (n & H1 & H2 & H3 & H4); try lia.
        exists (S n). split; [simpl; lia|].
        rewrite <- (failed_text_some Line lf Hlf) in *. split; [|split].
        { rewrite H2. simpl. rewrite E. reflexivity. }
        { intros Hn. simpl. rewrite E. apply H3. simpl in Hn. lia. }
        { intros [|m] Hm; [exact Hopen|]. simpl. rewrite E. apply H4. lia. }
  - rewrite (view_lines_strchr_none Line Hlf). exists 0%nat.
    split; [reflexivity|]. split; [reflexivity|]. split; simpl; intros; lia.
Qed.

Lemma scan_fuel_split opts View :
  exists f, Mapped.scan_fuel opts View = (N.to_nat (Skip opts) + S f)%nat
            /\ (length (view_lines View) < S f)%nat.
Proof.
  pose proof (view_lines_length View) as Hlen.
  exists (N.to_nat (Skip opts) * String.length View + String.length View)%nat.
  unfold Mapped.scan_fuel. split; nia.
Qed.

(** From the start of the view the loop first spins up to [Skip]. *)
Lemma scan_from_start api opts file terminated View d f :
  Skip opts < U64_MOD ->
  Mapped.scan api opts terminated (N.to_nat (Skip opts) + S f) file View 0 (loop_start d)
  = Mapped.scan api opts terminated (S f) file View (Skip opts) (loop_start d).
Proof.
  intros Hk. destruct (strchr View LF) as [lf|] eqn:Hlf.
  - apply scan_spin with (lf := lf); try lia; try assumption.
    simpl. destruct (0 <? Max opts) eqn:E; [|reflexivity].
    apply N.ltb_lt in E. simpl. apply N.leb_gt. exact E.
  - replace (N.to_nat (Skip opts) + S f)%nat with (S (N.to_nat (Skip opts) + f)) by lia.
    simpl. rewrite Hlf. reflexivity.
Qed.

Lemma scan_window_from_start api opts file View d :
  Skip opts + N.of_nat (length (view_lines View)) < U64_MOD ->
  exists n,
    (n <= length (view_lines View))%nat
    /\ Mapped.scan api opts true (Mapped.scan_fuel opts View) file View 0 (loop_start d)
       = Some (Mapped.Finished
                 (stopped opts (n <? length (view_lines View))%nat
                    (per_line api opts 16 failed_text file (take n (view_lines View))
                       (Skip opts) (loop_start d))))
    /\ ((n < length (view_lines View))%nat ->
        0 < Max opts
        /\ Max opts <= LSymbolized (per_line api opts 16 failed_text file
                                      (take n (view_lines View)) (Skip opts)
                                      (loop_start d)))
    /\ (forall n', (n' < n)%nat ->
        Max opts = 0
        \/ LSymbolized (per_line api opts 16 failed_text file
                          (take n' (view_lines View)) (Skip opts) (loop_start d))
           < Max opts).
Proof.
  intros Hw. destruct (scan_fuel_split opts View) as (f & -> & Hf).
  rewrite scan_from_start by lia.
  apply scan_window; lia.
Qed.

Lemma SymbolizeFile_done api opts w Input Output View st :
  fs_lookup (WFs w) Input = Some (File View) ->
  View <> EmptyString ->
  creatable (WFs w) Input Output ->
  Mapped.scan api opts (Mapped.terminated View) (Mapped.scan_fuel opts View)
    (filename Input) View 0 (loop_start (WDbg w)) = Some (Mapped.Finished st) ->
  Mapped.SymbolizeFile api opts w Input Output
  = Some (Mapped.Done true, commit w (opened (WFs w) Output) Output st).
Proof.
  intros HI HV HO Hscan. unfold Mapped.SymbolizeFile, opened.
  rewrite HI. rewrite decide_False by exact HV.
  destruct HO as [->|(Hne & Hfree)].
  - rewrite bool_decide_true by reflexivity. rewrite decide_True by reflexivity.
    rewrite Hscan. reflexivity.
  - destruct (decide (Output = EmptyString)) as [->|Hn].
    + rewrite bool_decide_true by reflexivity. rewrite Hscan. reflexivity.
    + rewrite bool_decide_false by exact Hn.
      rewrite decide_False by exact Hne.
      destruct Hfree as [->|[old ->]]; rewrite Hscan; reflexivity.
Qed.

(** *** The first revision *)

Lemma Legacy_Symbolize_eq api d a :
  Legacy.Symbolize api d a = Symbolize api d a FullSymbol.
Proof.
  unfold Legacy.Symbolize, Symbolize, SymbolizeFull.
  destruct (Cache_ d !! a); [reflexivity|].
  destruct (GetNameByOffset api (Queries_ d) a) as [[Buffer Displacement]|]; reflexivity.
Qed.










(** ** Skip and max windowing *)

Lemma per_line_counts api opts base text file lines L d :
  N.of_nat (length lines) < U64_MOD ->
  LSymbolized (per_line api opts base text file lines L (loop_start d))
  = N.of_nat (successes (answers_of api opts base d lines))
  /\ LFailed (per_line api opts base text file lines L (loop_start d))
     = N.of_nat (failures (answers_of api opts base d lines)).
Proof.
  intros Hb.
  destruct (per_line_account api opts base text file lines L (loop_start d))
    as (_ & H2 & H3 & _); [simpl; lia|simpl; lia|].
  simpl in H2, H3. rewrite N.add_0_l in H2, H3. split; assumption.
Qed.

(** One more line is at most one more success. *)
Lemma successes_step api opts base lines : forall d m,
  (successes (answers_of api opts base d (take (S m) lines))
   <= S (successes (answers_of api opts base d (take m lines))))%nat.
Proof.
  unfold answers_of.
  induction lines as [|l rest IH]; intros d m; [destruct m; simpl; lia|].
  destruct m as [|m]; simpl.
  - destruct (Symbolize api d (strtoull l base) (Style opts)).1;
      rewrite ?successes_some, ?successes_none; unfold successes; simpl; lia.
  - specialize (IH (Symbolize api d (strtoull l base) (Style opts)).2 m).
    destruct (Symbolize api d (strtoull l base) (Style opts)).1;
      rewrite ?successes_some, ?successes_none; simpl in IH; lia.
Qed.

Lemma answers_all_success api opts base lines : forall d,
  always_resolves api ->
  successes (answers_of api opts base d lines) = length lines
  /\ failures (answers_of api opts base d lines) = 0%nat.
Proof.
  unfold answers_of.
  induction lines as [|l rest IH]; intros d Hall; [split; reflexivity|].
  simpl. destruct (Symbolize_always api d (strtoull l base) (Style opts) Hall)
    as (s & d' & E).
  rewrite E. simpl. rewrite successes_some, failures_some.
  destruct (IH d' Hall) as [-> ->]. split; reflexivity.
Qed.

(** Past [Skip], whatever the answers, the loop of the getline revision
    is the line-by-line reference on the first [n] lines: it leaves when
    the ceiling is met, not before, and otherwise goes through all the
    lines. *)
Lemma read_loop_window api opts file lines : forall L st,
  Skip opts <= L ->
  L + N.of_nat (length lines) < U64_MOD ->
  exists n,
    (n <= length lines)%nat
    /\ Stream.read_loop api opts file lines L st
       = stopped opts (n <? length lines)%nat
           (per_line api opts 0 (fun l => l) file (take n lines) L st)
    /\ ((n < length lines)%nat ->
        Max opts <= LSymbolized (per_line api opts 0 (fun l => l) file
                                   (take n lines) L st))
    /\ (forall n', (n' < n)%nat ->
        LSymbolized (per_line api opts 0 (fun l => l) file (take n' lines) L st)
        < Max opts).
Proof.
  induction lines as [|l rest IH]; intros L st HL Hw.
  - exists 0%nat. split; [reflexivity|]. split; [reflexivity|].
    split; simpl; intros; lia.
  - simpl in Hw. simpl Stream.read_loop.
    destruct (N.leb_spec (Max opts) (LSymbolized st)) as [Hle|Hlt].
    + exists 0%nat. split; [simpl; lia|]. split; [reflexivity|].
      split; [intros _; exact Hle|intros; lia].
    + destruct (N.ltb_spec L (Skip opts)); [lia|].
      rewrite incr_small by lia.
      destruct (Symbolize api (LDbg st) (strtoull l 0) (Style opts)) as [[s|] d'] eqn:E.
      * destruct (IH (L + 1) (line_symbolized st d' (trace_line opts L s)))
          as (n & H1 & H2 & H3 & H4); try lia.
        exists (S n). split; [simpl; lia|]. split; [|split].
        { rewrite H2. simpl. rewrite E. reflexivity. }
        { intros Hn. simpl. rewrite E. apply H3. simpl in Hn. lia. }
        { intros [|m] Hm; [exact Hlt|]. simpl. rewrite E. apply H4. lia. }
      * destruct (IH (L + 1)
                    (line_failed st d' (SymbolizationFailed file L (strtoull l 0) l)))
          as (n & H1 & H2 & H3 & H4); try lia.
        exists (S n). split; [simpl; lia|]. split; [|split].
        { rewrite H2. simpl. rewrite E. reflexivity. }
        { intros Hn. simpl. rewrite E. apply H3. simpl in Hn. lia. }
        { intros [|m] Hm; [exact Hlt|]. simpl. rewrite E. apply H4. lia. }
Qed.

Lemma same_trace_stopped opts early st : same_trace (stopped opts early st) st.
Proof. destruct early; [apply same_trace_say|apply same_trace_refl]. Qed.

Lemma ceiling_holds api opts base d lines n (max : N) :
  (forall n', (n' < n)%nat ->
     N.of_nat (successes (answers_of api opts base d (take n' lines))) < max) ->
  N.of_nat (successes (answers_of api opts base d (take n lines))) <= max.
Proof.
  destruct n as [|m]; intros H.
  - rewrite take_0. unfold answers_of, successes. simpl. lia.
  - specialize (H m ltac:(lia)). pose proof (successes_step api opts base lines d m). lia.
Qed.

(** The window of the getline revision, whatever the answers. *)
Lemma Stream_window api opts file d lines :
  Skip opts < U64_MOD ->
  N.of_nat (length lines) < U64_MOD ->
  exists n,
    let rest := drop (N.to_nat (Skip opts)) lines in
    let st := Stream.read_loop api opts file lines 0 (loop_start d) in
    (n <= length rest)%nat
    /\ same_trace st
         (per_line api opts 0 (fun l => l) file (take n rest) (Skip opts) (loop_start d))
    /\ LSymbolized st = N.of_nat (successes (answers_of api opts 0 d (take n rest)))
    /\ LFailed st = N.of_nat (failures (answers_of api opts 0 d (take n rest)))
    /\ LSymbolized st <= Max opts
    /\ ((n < length rest)%nat -> LSymbolized st = Max opts)
    /\ (forall n', (n' < n)%nat ->
        N.of_nat (successes (answers_of api opts 0 d (take n' rest))) < Max opts).
Proof.
  intros Hk Hn. cbv zeta.
  set (rest := drop (N.to_nat (Skip opts)) lines).
  assert (Hrest : Skip opts + N.of_nat (length rest) < U64_MOD
                  /\ (length rest <= length lines)%nat).
  { unfold rest. rewrite length_drop. lia. }
  assert (Hcount : forall m,
            LSymbolized (per_line api opts 0 (fun l => l) file (take m rest) (Skip opts)
                           (loop_start d))
            = N.of_nat (successes (answers_of api opts 0 d (take m rest)))
            /\ LFailed (per_line api opts 0 (fun l => l) file (take m rest) (Skip opts)
                          (loop_start d))
               = N.of_nat (failures (answers_of api opts 0 d (take m rest)))).
  { intros m. apply per_line_counts. rewrite length_take. lia. }
  destruct (N.eq_dec (Max opts) 0) as [E|E].
  - exists 0%nat. rewrite take_0.
    assert (Hs : same_trace (Stream.read_loop api opts file lines 0 (loop_start d))
                   (loop_start d)).
    { destruct lines as [|l ls]; simpl; [apply same_trace_refl|].
      rewrite E. simpl. apply same_trace_say. }
    destruct Hs as (S1 & S2 & S3 & S4).
    split; [lia|]. split; [repeat split; assumption|].
    rewrite S2, S3. unfold answers_of, successes, failures. simpl.
    repeat split; try lia.
  - rewrite read_loop_skip by (simpl; lia). rewrite N.sub_0_r. fold rest.
    destruct (read_loop_window api opts file rest (Skip opts) (loop_start d))
      as (n & H1 & H2 & H3 & H4); try lia.
    exists n. rewrite H2.
    destruct (same_trace_stopped opts (n <? length rest)%nat
                (per_line api opts 0 (fun l => l) file (take n rest) (Skip opts)
                   (loop_start d))) as (S1 & S2 & S3 & S4).
    destruct (Hcount n) as [C1 C2].
    assert (Hbelow : forall n', (n' < n)%nat ->
              N.of_nat (successes (answers_of api opts 0 d (take n' rest))) < Max opts).
    { intros n' Hlt. destruct (Hcount n') as [<- _]. apply H4, Hlt. }
    pose proof (ceiling_holds api opts 0 d rest n (Max opts) Hbelow) as Hceil.
    split; [exact H1|]. split; [repeat split; assumption|].
    rewrite S2, S3, C1, C2.
    split; [reflexivity|]. split; [reflexivity|]. split; [exact Hceil|].
    split; [|exact Hbelow].
    intros Hlt. specialize (H3 Hlt). rewrite C1 in H3. lia.
Qed.

(** The window of the memory-mapped revision with nothing to skip, on a
    view followed by a zero byte, whatever the answers. *)
Lemma Mapped_window api opts file d View :
  Skip opts = 0 ->
  N.of_nat (length (view_lines View)) < U64_MOD ->
  exists n st,
    Mapped.scan api opts true (Mapped.scan_fuel opts View) file View 0 (loop_start d)
    = Some (Mapped.Finished st)
    /\ (n <= length (view_lines View))%nat
    /\ same_trace st
         (per_line api opts 16 failed_text file (take n (view_lines View)) 0
            (loop_start d))
    /\ LSymbolized st
       = N.of_nat (successes (answers_of api opts 16 d (take n (view_lines View))))
    /\ LFailed st
       = N.of_nat (failures (answers_of api opts 16 d (take n (view_lines View))))
    /\ (0 < Max opts -> LSymbolized st <= Max opts)
    /\ ((n < length (view_lines View))%nat -> 0 < Max opts /\ LSymbolized st = Max opts)
    /\ (forall n', (n' < n)%nat ->
        Max opts = 0
        \/ N.of_nat (successes (answers_of api opts 16 d (take n' (view_lines View))))
           < Max opts).
Proof.
  intros Hz Hn.
  destruct (scan_window_from_start api opts file View d) as (n & H1 & H2 & H3 & H4);
    [lia|].
  rewrite Hz in *.
  assert (Hcount : forall m,
            LSymbolized (per_line api opts 16 failed_text file (take m (view_lines View))
                           0 (loop_start d))
            = N.of_nat (successes (answers_of api opts 16 d (take m (view_lines View))))
            /\ LFailed (per_line api opts 16 failed_text file
                          (take m (view_lines View)) 0 (loop_start d))
               = N.of_nat (failures (answers_of api opts 16 d
                                       (take m (view_lines View))))).
  { intros m. apply per_line_counts. rewrite length_take. lia. }
  exists n. eexists. split; [exact H2|]. split; [exact H1|].
  destruct (same_trace_stopped opts (n <? length (view_lines View))%nat
              (per_line api opts 16 failed_text file (take n (view_lines View)) 0
                 (loop_start d))) as (S1 & S2 & S3 & S4).
  destruct (Hcount n) as [C1 C2].
  assert (Hbelow : forall n', (n' < n)%nat ->
            Max opts = 0
            \/ N.of_nat (successes (answers_of api opts 16 d (take n' (view_lines View))))
               < Max opts).
  { intros n' Hlt. destruct (Hcount n') as [<- _]. apply H4, Hlt. }
  assert (Hceil : 0 < Max opts ->
            N.of_nat (successes (answers_of api opts 16 d (take n (view_lines View))))
            <= Max opts).
  { intros Hpos. apply ceiling_holds. intros n' Hlt.
    destruct (Hbelow n' Hlt); [lia|assumption]. }
  split; [repeat split; assumption|].
  rewrite S2, S3, C1, C2.
  split; [reflexivity|]. split; [reflexivity|]. split; [exact Hceil|].
  split; [|exact Hbelow].
  intros Hlt. destruct (H3 Hlt) as [Hpos Hle]. rewrite C1 in Hle.
  specialize (Hceil Hpos). split; [exact Hpos|lia].
Qed.

Lemma successes_le_length (answers : list (option string)) :
  (successes answers <= length answers)%nat.
Proof. pose proof (answers_split answers). lia. Qed.

(** With the ceiling out of reach, on a view followed by a zero byte,
    the loop is the line-by-line reference on all the lines of the view,
    numbered from [Skip] on. *)
Lemma scan_all_lines api opts file View d :
  Skip opts + N.of_nat (length (view_lines View)) < U64_MOD ->
  Max opts = 0 \/ N.of_nat (length (view_lines View)) <= Max opts ->
  Mapped.scan api opts true (Mapped.scan_fuel opts View) file View 0 (loop_start d)
  = Some (Mapped.Finished
            (per_line api opts 16 failed_text file (view_lines View) (Skip opts)
               (loop_start d))).
Proof.
  intros Hw Hm.
  destruct (scan_window_from_start api opts file View d Hw) as (n & H1 & H2 & H3 & _).
  assert (Hn : n = length (view_lines View)).
  { assert (Hcase : n = length (view_lines View) \/ (n < length (view_lines View))%nat)
      by lia.
    destruct Hcase as [E|E]; [exact E|]. destruct (H3 E) as [Hpos Hle].
    destruct (per_line_counts api opts 16 failed_text file (take n (view_lines View))
                (Skip opts) d) as [C1 _]; [rewrite length_take; lia|].
    rewrite C1 in Hle.
    pose proof (successes_le_length
                  (answers_of api opts 16 d (take n (view_lines View)))) as Hs.
    rewrite answers_of_length, length_take in Hs. lia. }
  subst n. rewrite Nat.ltb_irrefl, firstn_all in H2. exact H2.
Qed.

(** C3, as stated, fails for the memory-mapped revision, where a [Max] of
    zero means that there is no ceiling: one line, nothing skipped, [Max]
    zero, and the line is symbolized, while [min(m, N - k)] is 0. *)
Lemma windowing_counterexample :
  let opts := with_window default_opts 0 0 in
  let View := ("1000" +:+ nl)%string in
  exists st,
    Mapped.scan nt_api opts (Mapped.terminated View) (Mapped.scan_fuel opts View)
      "trace.txt" View 0 (loop_start fresh) = Some (Mapped.Finished st)
    /\ length (view_lines View) = 1%nat
    /\ LSymbolized st = 1
    /\ N.min (Max opts) (1 - Skip opts) = 0.
Proof. eexists. vm_compute. repeat split; reflexivity. Qed.

(** C3, amended -- in the getline revision, whatever the answers of the
    resolver, the lines processed are the lines [k], [k + 1], ... under
    their own numbers, up to the point where [m] of them are symbolized:
    no earlier (a failed line does not count towards [m], which bounds
    the symbolized lines and not the lines read) and no later; when all
    resolutions succeed their number is [min(m, N - k)] and no line
    fails. In the memory-mapped revision, for a view followed by a zero
    byte and with nothing to skip, the same holds with [m = 0] standing
    for no ceiling: when all resolutions succeed the number of symbolized
    lines is [N] when [m] is zero and [min(m, N)] otherwise, [N] counting
    the lines ended by a line feed. *)
Theorem skip_max_windowing
  (api : Api) (opts : Opts_t) (file : string) (d : DbgEng_t) (lines : list string)
  (View : string) :
  Skip opts < U64_MOD ->
  N.of_nat (length lines) < U64_MOD ->
  N.of_nat (length (view_lines View)) < U64_MOD ->
  (exists n,
     let rest := drop (N.to_nat (Skip opts)) lines in
     let st := Stream.read_loop api opts file lines 0 (loop_start d) in
     (n <= length rest)%nat
     /\ same_trace st
          (per_line api opts 0 (fun l => l) file (take n rest) (Skip opts) (loop_start d))
     /\ LSymbolized st = N.of_nat (successes (answers_of api opts 0 d (take n rest)))
     /\ LFailed st = N.of_nat (failures (answers_of api opts 0 d (take n rest)))
     /\ LSymbolized st <= Max opts
     /\ ((n < length rest)%nat -> LSymbolized st = Max opts)
     /\ (forall n', (n' < n)%nat ->
         N.of_nat (successes (answers_of api opts 0 d (take n' rest))) < Max opts)
     /\ (always_resolves api ->
         N.of_nat n = N.min (Max opts) (N.of_nat (length lines) - Skip opts)
         /\ LSymbolized st = N.min (Max opts) (N.of_nat (length lines) - Skip opts)
         /\ LFailed st = 0))
  /\ (Skip opts = 0 ->
      Mapped.terminated View = true ->
      exists n st,
        Mapped.scan api opts (Mapped.terminated View) (Mapped.scan_fuel opts View) file
          View 0 (loop_start d) = Some (Mapped.Finished st)
        /\ (n <= length (view_lines View))%nat
        /\ same_trace st
             (per_line api opts 16 failed_text file (take n (view_lines View)) 0
                (loop_start d))
        /\ LSymbolized st
           = N.of_nat (successes (answers_of api opts 16 d (take n (view_lines View))))
        /\ LFailed st
           = N.of_nat (failures (answers_of api opts 16 d (take n (view_lines View))))
        /\ (0 < Max opts -> LSymbolized st <= Max opts)
        /\ ((n < length (view_lines View))%nat ->
            0 < Max opts /\ LSymbolized st = Max opts)
        /\ (forall n', (n' < n)%nat ->
            Max opts = 0
            \/ N.of_nat (successes (answers_of api opts 16 d
                                      (take n' (view_lines View)))) < Max opts)
        /\ (always_resolves api ->
            LSymbolized st
            = (if Max opts =? 0 then N.of_nat (length (view_lines View))
               else N.min (Max opts) (N.of_nat (length (view_lines View))))
            /\ LFailed st = 0)).
Proof.
  intros Hk Hn Hv. split.
  - destruct (Stream_window api opts file d lines Hk Hn)
      as (n & H1 & H2 & H3 & H4 & H5 & H6 & H7).
    exists n. cbv zeta.
    split; [exact H1|]. split; [exact H2|]. split; [exact H3|]. split; [exact H4|].
    split; [exact H5|]. split; [exact H6|]. split; [exact H7|].
    intros Hall.
    destruct (answers_all_success api opts 0
                (take n (drop (N.to_nat (Skip opts)) lines)) d Hall) as [A1 A2].
    rewrite A1 in H3. rewrite A2 in H4. rewrite length_take in H3.
    rewrite length_drop in H1, H3, H6.
    rewrite H3 in H5, H6 |- *. rewrite H4.
    assert (Hcase : (n = length lines - N.to_nat (Skip opts))%nat
                    \/ (n < length lines - N.to_nat (Skip opts))%nat) by lia.
    destruct Hcase as [E|E]; [|specialize (H6 E)]; repeat split; lia.
  - intros Hz HT. rewrite HT.
    destruct (Mapped_window api opts file d View Hz Hv)
      as (n & st & H0 & H1 & H2 & H3 & H4 & H5 & H6 & H7).
    exists n, st.
    split; [exact H0|]. split; [exact H1|]. split; [exact H2|]. split; [exact H3|].
    split; [exact H4|]. split; [exact H5|]. split; [exact H6|]. split; [exact H7|].
    intros Hall.
    destruct (answers_all_success api opts 16 (take n (view_lines View)) d Hall)
      as [A1 A2].
    rewrite A1 in H3. rewrite A2 in H4. rewrite length_take in H3.
    rewrite H3 in H5, H6 |- *. rewrite H4. split; [|reflexivity].
    destruct (N.eqb_spec (Max opts) 0) as [E|E].
    + assert (Hcase : n = length (view_lines View) \/ (n < length (view_lines View))%nat)
        by lia.
      destruct Hcase as [->|Hlt]; [lia|]. destruct (H6 Hlt); lia.
    + assert (Hpos : 0 < Max opts) by lia. specialize (H5 Hpos).
      assert (Hcase : n = length (view_lines View) \/ (n < length (view_lines View))%nat)
        by lia.
      destruct Hcase as [->|Hlt]; [lia|]. destruct (H6 Hlt); lia.
Qed.

Lemma total_api_always : always_resolves total_api.
Proof. intros h [[] a]; simpl; discriminate. Qed.

Lemma skip_max_windowing_witness :
  let opts := with_window default_opts 1 2 in
  let lines := ["0x2"; "0x1000"; "zz"; "0x1800"; "0x1008"]%string in
  let View :=
    ("1000" +:+ nl +:+ "zz" +:+ nl +:+ "1800" +:+ nl +:+ "1008" +:+ nl)%string in
  (same_trace (Stream.read_loop nt_api opts "t" lines 0 (loop_start fresh))
     (per_line nt_api opts 0 (fun l => l) "t" ["0x1000"; "zz"; "0x1800"]%string 1
        (loop_start fresh))
   /\ LSymbolized (Stream.read_loop nt_api opts "t" lines 0 (loop_start fresh)) = 2
   /\ LFailed (Stream.read_loop nt_api opts "t" lines 0 (loop_start fresh)) = 1)
  /\ (LSymbolized (Stream.read_loop total_api opts "t" lines 0 (loop_start fresh))
      = N.min 2 (5 - 1)
      /\ LFailed (Stream.read_loop total_api opts "t" lines 0 (loop_start fresh)) = 0)
  /\ (exists st,
        Mapped.scan nt_api (with_window default_opts 0 2) (Mapped.terminated View)
          (Mapped.scan_fuel (with_window default_opts 0 2) View) "t" View 0
          (loop_start fresh) = Some (Mapped.Finished st)
        /\ same_trace st
             (per_line nt_api (with_window default_opts 0 2) 16 failed_text "t"
                (take 3 (view_lines View)) 0 (loop_start fresh))
        /\ LSymbolized st = 2 /\ LFailed st = 1).
Proof.
  intros opts lines View. split; [|split].
  - destruct (skip_max_windowing nt_api opts "t" fresh lines View)
      as [(n & Hn & H2 & H3 & H4 & _ & H6 & H7 & _) _];
      try (vm_compute; reflexivity).
    assert (n = 3%nat) as ->.
    { destruct n as [|[|[|[|[|n]]]]].
      - specialize (H6 ltac:(simpl; lia)). rewrite H3 in H6. vm_compute in H6.
        discriminate.
      - specialize (H6 ltac:(simpl; lia)). rewrite H3 in H6. vm_compute in H6.
        discriminate.
      - specialize (H6 ltac:(simpl; lia)). rewrite H3 in H6. vm_compute in H6.
        discriminate.
      - reflexivity.
      - specialize (H7 3%nat ltac:(lia)). vm_compute in H7. discriminate.
      - simpl in Hn. lia. }
    split; [exact H2|]. split; [exact H3|exact H4].
  - destruct (skip_max_windowing total_api opts "t" fresh lines View)
      as [(n & _ & _ & _ & _ & _ & _ & _ & Hall) _];
      try (vm_compute; reflexivity).
    destruct (Hall total_api_always) as (_ & A2 & A3).
    split; [exact A2|exact A3].
  - destruct (skip_max_windowing nt_api (with_window default_opts 0 2) "t" fresh lines
                View) as [_ HM]; try (vm_compute; reflexivity).
    destruct (HM eq_refl eq_refl) as (n & st & H0 & Hn & H2 & H3 & H4 & _ & H6 & H7 & _).
    assert (n = 3%nat) as ->.
    { destruct n as [|[|[|[|[|n]]]]].
      - destruct (H6 ltac:(simpl; lia)) as [_ H]. rewrite H3 in H. vm_compute in H.
        discriminate.
      - destruct (H6 ltac:(simpl; lia)) as [_ H]. rewrite H3 in H. vm_compute in H.
        discriminate.
      - destruct (H6 ltac:(simpl; lia)) as [_ H]. rewrite H3 in H. vm_compute in H.
        discriminate.
      - reflexivity.
      - destruct (H7 3%nat ltac:(lia)) as [H|H]; vm_compute in H; discriminate.
      - simpl in Hn. lia. }
    exists st. split; [exact H0|]. split; [exact H2|]. split; [exact H3|exact H4].
Defined.

(** The skip of the memory-mapped revision leaves the pointer where it
    is: with one line to skip, both lines of a two-line view are
    processed, under the numbers 1 and 2. *)
Lemma Mapped_skip_keeps_pointer :
  let opts :=
    {| Input := "trace.txt"; Output := EmptyString; CrashdumpPath := "mem.dmp";
       Skip := 1; Max := 20000000; Style := FullSymbol;
       Overwrite := false; LineNumbers := true |} in
  let View := ("1000" +:+ nl +:+ "1800" +:+ nl)%string in
  exists st,
    Mapped.scan nt_api opts (Mapped.terminated View) (Mapped.scan_fuel opts View)
      "trace.txt" View 0 (loop_start fresh) = Some (Mapped.Finished st)
    /\ LSymbolized st = 2
    /\ written (LEvents st)
       = ("l1: nt!KiPageFault+0x0" +:+ nl +:+ "l2: nt!KiPageFault+0x800" +:+ nl)%string.
Proof. eexists. vm_compute. repeat split; reflexivity. Qed.

(** The same trace in the getline revision: line 0 is skipped. *)
Lemma Stream_skip_drops_line :
  let opts :=
    {| Input := "trace.txt"; Output := EmptyString; CrashdumpPath := "mem.dmp";
       Skip := 1; Max := 20000000; Style := FullSymbol;
       Overwrite := false; LineNumbers := true |} in
  let st := Stream.read_loop nt_api opts "trace.txt"
              (Stream.getlines ("0x1000" +:+ nl +:+ "0x1800" +:+ nl)) 0
              (loop_start fresh) in
  LSymbolized st = 1
  /\ written (LEvents st) = ("l1: nt!KiPageFault+0x800" +:+ nl)%string.
Proof. vm_compute. split; reflexivity. Qed.

(** ** The parse *)

Lemma digit_not_blank_nor_sign base c :
  is_digit_in base c = true ->
  isspace c = false /\ Ascii.eqb c "-" = false /\ Ascii.eqb c "+" = false.
Proof.
  unfold is_digit_in. destruct (digit_value c) as [v|] eqn:E; [|discriminate].
  intros _. revert E.
  destruct c as [[] [] [] [] [] [] [] []]; vm_compute; intros E;
    (discriminate || (repeat split; reflexivity)).
Qed.

Lemma strtoull_after_sign s base :
  strtoull s base
  = finish (split_sign (skip_space s)).1
      (accumulate (select_base base (after_sign s)).1
         (select_base base (after_sign s)).2 0).
Proof.
  unfold strtoull, after_sign. destruct (split_sign (skip_space s)) as [neg s2].
  simpl. destruct (select_base base s2). reflexivity.
Qed.

Lemma strtoull_unsigned s base c r :
  s = String c r -> is_digit_in 16 c = true ->
  strtoull s base = finish false (accumulate (select_base base s).1 (select_base base s).2 0).
Proof.
  intros -> Hc. destruct (digit_not_blank_nor_sign 16 c Hc) as (Hs & Hm & Hp).
  rewrite strtoull_after_sign. unfold after_sign. simpl skip_space. rewrite Hs.
  unfold split_sign. rewrite Hm, Hp. reflexivity.
Qed.

Lemma accumulate_digits base ds : forall rest acc,
  all_digits base ds -> no_digit_ahead base rest ->
  accumulate base (ds +:+ rest) acc
  = fold_left (fun a c => a * base + default 0 (digit_value c))
      (list_ascii_of_string ds) acc.
Proof.
  unfold all_digits.
  induction ds as [|c r IH]; intros rest acc Hd Hr.
  - rewrite append_nil_l. simpl. destruct rest as [|c r]; [reflexivity|].
    simpl in *. unfold is_digit_in in Hr.
    destruct (digit_value c); [rewrite Hr|]; reflexivity.
  - rewrite append_cons. simpl in *. inversion Hd as [|? ? Hc Hd']; subst.
    unfold is_digit_in in Hc. destruct (digit_value c) as [v|]; [|discriminate].
    rewrite Hc. simpl. apply IH; assumption.
Qed.

Lemma finish_unsigned v : finish false v = N.min v ULLONG_MAX.
Proof.
  unfold finish. destruct (N.ltb_spec ULLONG_MAX v); lia.
Qed.

Lemma digit_10_16 c : is_digit_in 10 c = true -> is_digit_in 16 c = true.
Proof.
  unfold is_digit_in. destruct (digit_value c); [|discriminate].
  intros H. apply N.ltb_lt in H. apply N.ltb_lt. lia.
Qed.

Lemma no_digit_16_10 s : no_digit_ahead 16 s -> no_digit_ahead 10 s.
Proof.
  destruct s as [|c r]; simpl; [auto|]. intros H.
  destruct (is_digit_in 10 c) eqn:E; [|reflexivity].
  apply digit_10_16 in E. congruence.
Qed.


(** *** What the loops ask of the engine *)

(** What the per-file loops do to the engine object is a run of calls
    under the style of the options. *)
Lemma scan_calls api opts terminated file fuel : forall Line L st r,
  Mapped.scan api opts terminated fuel file Line L st = Some r ->
  exists addrs,
    LDbg (scan_state r) = Symbolize_all api (LDbg st) (map (pair (Style opts)) addrs).
Proof.
  induction fuel as [|fuel IH]; intros Line L st r H; [discriminate|].
  simpl in H. destruct (strchr Line LF) as [lf|].
  - destruct ((0 <? Max opts) && (Max opts <=? LSymbolized st))%bool.
    { injection H as <-. exists []. reflexivity. }
    destruct (L <? Skip opts); [eauto|].
    destruct (negb terminated && strtoull_reads_end Line 16)%bool.
    { injection H as <-. exists []. reflexivity. }
    destruct (Symbolize api (LDbg st) (strtoull Line 16) (Style opts)) as [[s|] d'] eqn:E.
    + apply IH in H. destruct H as [addrs H]. simpl in H.
      exists (strtoull Line 16 :: addrs). simpl. rewrite E. exact H.
    + destruct (negb terminated && strchr_reads_end Line CR)%bool.
      * injection H as <-. exists [strtoull Line 16]. simpl. rewrite E. reflexivity.
      * apply IH in H. destruct H as [addrs H]. simpl in H.
        exists (strtoull Line 16 :: addrs). simpl. rewrite E. exact H.
  - destruct (negb terminated && strchr_reads_end Line LF)%bool;
      injection H as <-; exists []; reflexivity.
Qed.

Lemma read_loop_calls api opts file lines : forall L st,
  exists addrs,
    LDbg (Stream.read_loop api opts file lines L st)
    = Symbolize_all api (LDbg st) (map (pair (Style opts)) addrs).
Proof.
  induction lines as [|l rest IH]; intros L st; simpl.
  - exists []. reflexivity.
  - destruct (Max opts <=? LSymbolized st); [exists []; reflexivity|].
    destruct (L <? Skip opts); [apply IH|].
    destruct (Symbolize api (LDbg st) (strtoull l 0) (Style opts)) as [[s|] d'] eqn:E.
    + destruct (IH (incr L) (line_symbolized st d' (trace_line opts L s))) as [addrs H].
      exists (strtoull l 0 :: addrs). simpl. rewrite E. exact H.
    + destruct (IH (incr L) (line_failed st d'
                  (SymbolizationFailed file L (strtoull l 0) l))) as [addrs H].
      exists (strtoull l 0 :: addrs). simpl. rewrite E. exact H.
Qed.

Lemma Legacy_read_loop_calls api opts lines : forall Idx st,
  exists addrs,
    LDbg (Legacy.read_loop api opts lines Idx st)
    = Symbolize_all api (LDbg st) (map (pair FullSymbol) addrs).
Proof.
  induction lines as [|l rest IH]; intros Idx st; simpl.
  - exists []. reflexivity.
  - destruct (Max opts <=? Idx); [exists []; reflexivity|].
    destruct (Idx <? Skip opts); [apply IH|].
    rewrite Legacy_Symbolize_eq.
    destruct (Symbolize api (LDbg st) (strtoull l 0) FullSymbol) as [[s|] d'] eqn:E.
    + destruct (IH (incr Idx) (line_symbolized st d' [Written (s +:+ nl)])) as [addrs H].
      exists (strtoull l 0 :: addrs). simpl. rewrite E. exact H.
    + match goal with
      | |- context [Legacy.read_loop api opts rest (incr Idx) ?s1] =>
          destruct (IH (incr Idx) s1) as [addrs H]
      end.
      exists (strtoull l 0 :: addrs). simpl. rewrite E. exact H.
Qed.

(** *** A line that starts with its literal is parsed within the view *)

Lemma digit_not_lf_nul base c :
  is_digit_in base c = true -> Ascii.eqb c LF = false /\ Ascii.eqb c NUL = false.
Proof.
  unfold is_digit_in. destruct (digit_value c) as [v|] eqn:E; [|discriminate].
  intros _. revert E.
  destruct c as [[] [] [] [] [] [] [] []]; vm_compute; intros E;
    (discriminate || (split; reflexivity)).
Qed.

Lemma strchr_past_digits base ds rest :
  all_digits base ds -> strchr (ds +:+ rest) LF = strchr rest LF.
Proof.
  unfold all_digits. induction ds as [|c r IH]; intros Hd; [reflexivity|].
  simpl in Hd. inversion Hd as [|? ? Hc Hr]; subst.
  destruct (digit_not_lf_nul base c Hc) as [H1 H2].
  rewrite append_cons. simpl. rewrite H1, H2. apply IH, Hr.
Qed.

Lemma digits_end_at_lf base s lf :
  strchr s LF = Some lf -> forallb (is_digit_in base) (list_ascii_of_string s) = false.
Proof.
  induction s as [|a r IH]; simpl; [discriminate|].
  destruct (Ascii.eqb a LF) eqn:Ea.
  - apply Ascii.eqb_eq in Ea. subst a. intros _. reflexivity.
  - destruct (Ascii.eqb a NUL); [discriminate|]. intros H.
    rewrite (IH H). apply andb_false_r.
Qed.

Lemma bare_marker_has_no_lf s lf : strchr s LF = Some lf -> bare_marker s = false.
Proof.
  destruct s as [|z [|x [|y t]]]; try reflexivity. simpl.
  destruct (Ascii.eqb z "0") eqn:Ez; [|reflexivity].
  apply Ascii.eqb_eq in Ez. subst z. simpl.
  destruct (Ascii.eqb x "x") eqn:Ex.
  { apply Ascii.eqb_eq in Ex. subst x. discriminate. }
  destruct (Ascii.eqb x "X") eqn:EX; [|reflexivity].
  apply Ascii.eqb_eq in EX. subst x. discriminate.
Qed.

Lemma hex_prefix_keeps_lf s r lf :
  strchr s LF = Some lf -> hex_prefix s = Some r -> strchr r LF = Some lf.
Proof.
  destruct s as [|z [|x t]]; try discriminate. simpl hex_prefix.
  destruct (Ascii.eqb z "0" && (Ascii.eqb x "x" || Ascii.eqb x "X"))%bool eqn:E;
    [|discriminate].
  apply andb_prop in E. destruct E as [Ez Ex]. apply Ascii.eqb_eq in Ez. subst z.
  destruct t as [|h t']; [discriminate|].
  destruct (is_digit_in 16 h); [|discriminate]. intros H [= <-].
  apply orb_prop in Ex. destruct Ex as [Ex|Ex]; apply Ascii.eqb_eq in Ex; subst x;
    exact H.
Qed.

Lemma select_base_keeps_lf base s lf :
  strchr s LF = Some lf -> strchr (select_base base s).2 LF = Some lf.
Proof.
  intros H. unfold select_base.
  destruct (base =? 0); [|destruct (base =? 16)];
    try (destruct (hex_prefix s) as [r|] eqn:E;
         [exact (hex_prefix_keeps_lf s r lf H E)|]);
    try destruct (starts_with_zero s); exact H.
Qed.

(** A line that starts with something other than white space and has its
    line feed ahead is parsed without a look at what follows the view. *)
Lemma strtoull_within_line s c r lf base :
  s = String c r -> isspace c = false -> strchr s LF = Some lf ->
  strtoull_reads_end s base = false.
Proof.
  intros -> Hc H. unfold strtoull_reads_end. simpl skip_space. rewrite Hc.
  assert (Hs : strchr (split_sign (String c r)).2 LF = Some lf).
  { unfold split_sign.
    destruct (Ascii.eqb c "-") eqn:E1;
      [apply Ascii.eqb_eq in E1; subst c; exact H|].
    destruct (Ascii.eqb c "+") eqn:E2;
      [apply Ascii.eqb_eq in E2; subst c; exact H|exact H]. }
  destruct (split_sign (String c r)) as [neg s2]. simpl in Hs.
  pose proof (select_base_keeps_lf base s2 lf Hs) as Hb.
  destruct (select_base base s2) as [b s3]. simpl in Hb.
  rewrite (bare_marker_has_no_lf s2 lf Hs), (digits_end_at_lf b s3 lf Hb).
  rewrite andb_false_r. reflexivity.
Qed.

Lemma digit_8_16 c : is_digit_in 8 c = true -> is_digit_in 16 c = true.
Proof.
  unfold is_digit_in. destruct (digit_value c); [|discriminate].
  intros H. apply N.ltb_lt in H. apply N.ltb_lt. lia.
Qed.

Lemma no_digit_16_8 s : no_digit_ahead 16 s -> no_digit_ahead 8 s.
Proof.
  destruct s as [|c r]; simpl; [auto|]. intros H.
  destruct (is_digit_in 8 c) eqn:E; [|reflexivity].
  apply digit_8_16 in E. congruence.
Qed.

(** The value [strtoull] gives for a run of digits that carries no
    marker: in base 16 as asked; with base 0, in base 10, or in base 8
    when the run starts with 0. *)
Lemma strtoull_digits (ds rest : string) (c : ascii) (r : string) :
  ds = String c r ->
  all_digits 16 ds ->
  no_digit_ahead 16 rest ->
  hex_prefix (ds +:+ rest) = None ->
  strtoull (ds +:+ rest) 16 = N.min (digits_value 16 ds) ULLONG_MAX
  /\ (all_digits 10 ds -> c <> "0"%char ->
      strtoull (ds +:+ rest) 0 = N.min (digits_value 10 ds) ULLONG_MAX)
  /\ (all_digits 8 ds -> c = "0"%char ->
      strtoull (ds +:+ rest) 0 = N.min (digits_value 8 ds) ULLONG_MAX).
Proof.
  intros Hds Hd Hr Hp.
  assert (Hc : is_digit_in 16 c = true).
  { subst ds. unfold all_digits in Hd. simpl in Hd. inversion Hd; assumption. }
  split; [|split].
  - rewrite (strtoull_unsigned (ds +:+ rest) 16 c (r +:+ rest))
      by (subst ds; auto using append_cons).
    unfold select_base. simpl N.eqb. cbv iota. rewrite Hp. simpl fst. simpl snd.
    rewrite accumulate_digits by assumption. apply finish_unsigned.
  - intros Hd10 Hz.
    rewrite (strtoull_unsigned (ds +:+ rest) 0 c (r +:+ rest))
      by (subst ds; auto using append_cons).
    unfold select_base. simpl N.eqb. cbv iota. rewrite Hp.
    assert (starts_with_zero (ds +:+ rest) = false) as ->.
    { subst ds. rewrite append_cons. simpl. apply Ascii.eqb_neq, Hz. }
    simpl fst. simpl snd.
    rewrite accumulate_digits by auto using no_digit_16_10.
    apply finish_unsigned.
  - intros Hd8 Hz.
    rewrite (strtoull_unsigned (ds +:+ rest) 0 c (r +:+ rest))
      by (subst ds; auto using append_cons).
    unfold select_base. simpl N.eqb. cbv iota. rewrite Hp.
    assert (starts_with_zero (ds +:+ rest) = true) as ->.
    { subst ds c. reflexivity. }
    simpl fst. simpl snd.
    rewrite accumulate_digits by auto using no_digit_16_8.
    apply finish_unsigned.
Qed.

(** A line inside the window is the next address the loop resolves. *)
Lemma Stream_line api opts file l more L st :
  Skip opts <= L -> LSymbolized st < Max opts ->
  resolves_first api (Style opts) (LDbg st) (strtoull l 0)
    (LDbg (Stream.read_loop api opts file (l :: more) L st)).
Proof.
  intros Hk Hm. unfold resolves_first. simpl Stream.read_loop.
  destruct (N.leb_spec (Max opts) (LSymbolized st)); [lia|].
  destruct (N.ltb_spec L (Skip opts)); [lia|].
  destruct (Symbolize api (LDbg st) (strtoull l 0) (Style opts)) as [[s|] d'] eqn:E.
  - destruct (read_loop_calls api opts file more (incr L)
                (line_symbolized st d' (trace_line opts L s))) as [addrs Ha].
    exists addrs. rewrite Ha. simpl. rewrite E. reflexivity.
  - destruct (read_loop_calls api opts file more (incr L)
                (line_failed st d' (SymbolizationFailed file L (strtoull l 0) l)))
      as [addrs Ha].
    exists addrs. rewrite Ha. simpl. rewrite E. reflexivity.
Qed.

Lemma Legacy_line api opts l more Idx st :
  Skip opts <= Idx -> Idx < Max opts ->
  resolves_first api FullSymbol (LDbg st) (strtoull l 0)
    (LDbg (Legacy.read_loop api opts (l :: more) Idx st)).
Proof.
  intros Hk Hm. unfold resolves_first. simpl Legacy.read_loop.
  destruct (N.leb_spec (Max opts) Idx); [lia|].
  destruct (N.ltb_spec Idx (Skip opts)); [lia|].
  rewrite Legacy_Symbolize_eq.
  destruct (Symbolize api (LDbg st) (strtoull l 0) FullSymbol) as [[s|] d'] eqn:E.
  - destruct (Legacy_read_loop_calls api opts more (incr Idx)
                (line_symbolized st d' [Written (s +:+ nl)])) as [addrs Ha].
    exists addrs. rewrite Ha. simpl. rewrite E. reflexivity.
  - match goal with
    | |- context [Legacy.read_loop api opts more (incr Idx) ?s1] =>
        destruct (Legacy_read_loop_calls api opts more (incr Idx) s1) as [addrs Ha]
    end.
    exists addrs. rewrite Ha. simpl. rewrite E. reflexivity.
Qed.

Lemma scan_fuel_covers opts Line L :
  (length (view_lines Line) * (N.to_nat (Skip opts) + 1)
   + N.to_nat (Skip opts - L) + 1 <= Mapped.scan_fuel opts Line)%nat.
Proof.
  unfold Mapped.scan_fuel. pose proof (view_lines_length Line). nia.
Qed.

(** The same for a line of a view that starts with something other than
    white space, whether a zero byte follows the view or not. *)
Lemma Mapped_line api opts terminated file Line L st c r lf :
  Skip opts < U64_MOD -> Skip opts <= L ->
  Max opts = 0 \/ LSymbolized st < Max opts ->
  Line = String c r -> isspace c = false -> strchr Line LF = Some lf ->
  exists res,
    Mapped.scan api opts terminated (Mapped.scan_fuel opts Line) file Line L st = Some res
    /\ resolves_first api (Style opts) (LDbg st) (strtoull Line 16)
         (LDbg (scan_state res)).
Proof.
  intros Hk HL Hm HV Hc Hlf.
  destruct (scan_total api opts file terminated (Mapped.scan_fuel opts Line)
              Line L st Hk (scan_fuel_covers opts Line L)) as [res Hres].
  exists res. split; [exact Hres|].
  destruct (scan_fuel_split opts Line) as (f & Hf & _). rewrite Hf in Hres.
  replace (N.to_nat (Skip opts) + S f)%nat with (S (N.to_nat (Skip opts) + f)) in Hres
    by lia.
  simpl in Hres. rewrite Hlf in Hres.
  assert (((0 <? Max opts) && (Max opts <=? LSymbolized st))%bool = false) as Hceil.
  { destruct (N.ltb_spec 0 (Max opts)); [|reflexivity].
    destruct (N.leb_spec (Max opts) (LSymbolized st)); [lia|reflexivity]. }
  rewrite Hceil in Hres.
  destruct (N.ltb_spec L (Skip opts)); [lia|].
  rewrite (strtoull_within_line Line c r lf 16 HV Hc Hlf), andb_false_r in Hres.
  unfold resolves_first.
  destruct (Symbolize api (LDbg st) (strtoull Line 16) (Style opts)) as [[s|] d'] eqn:E.
  - apply scan_calls in Hres. destruct Hres as [addrs Ha]. simpl in Ha.
    exists addrs. rewrite Ha. simpl. rewrite E. reflexivity.
  - destruct (negb terminated && strchr_reads_end Line CR)%bool.
    + injection Hres as <-. exists []. simpl. rewrite E. reflexivity.
    + apply scan_calls in Hres. destruct Hres as [addrs Ha]. simpl in Ha.
      exists addrs. rewrite Ha. simpl. rewrite E. reflexivity.
Qed.

(** C5, as stated, fails for the two revisions that call
    [strtoull(.., 0)]: there the line "10" is address 10, not 0x10. *)
Lemma base_counterexample :
  Queries_ (LDbg (Stream.read_loop nt_api default_opts "trace.txt" ["10"%string] 0
                    (loop_start fresh))) = [(FullSymbol, 10)]
  /\ Queries_ (LDbg (Legacy.read_loop nt_api default_opts ["10"%string] 0
                       (loop_start fresh))) = [(FullSymbol, 10)]
  /\ strtoull "10" 0 <> 16.
Proof. vm_compute. repeat split; (reflexivity || discriminate). Qed.

(** C5, amended -- a line that the loop processes and that starts with a
    literal without base marker, [ds] being its digits. The loop of the
    memory-mapped revision ([strtoull(.., 16)]) resolves the address [ds]
    denotes in base 16. The loops of the getline revisions
    ([strtoull(.., 0)]) resolve the address [ds] denotes in base 10 when
    it is made of decimal digits and does not start with 0, and in base 8
    when it is made of octal digits and starts with 0. A value that does
    not fit in 64 bits is [ULLONG_MAX]. The loops are taken at the line,
    in any state: [L] is its number, and the ceiling is not met. *)
Theorem literal_without_marker
  (api : Api) (opts : Opts_t) (file : string) (st : Loop) (L : N)
  (ds rest : string) (c : ascii) (r : string) (more : list string) :
  ds = String c r ->
  all_digits 16 ds ->
  no_digit_ahead 16 rest ->
  hex_prefix (ds +:+ rest) = None ->
  Skip opts < U64_MOD ->
  Skip opts <= L ->
  (strtoull (ds +:+ rest) 16 = N.min (digits_value 16 ds) ULLONG_MAX
   /\ forall terminated lf,
      strchr rest LF = Some lf ->
      Max opts = 0 \/ LSymbolized st < Max opts ->
      exists res,
        Mapped.scan api opts terminated (Mapped.scan_fuel opts (ds +:+ rest)) file
          (ds +:+ rest) L st = Some res
        /\ resolves_first api (Style opts) (LDbg st)
             (N.min (digits_value 16 ds) ULLONG_MAX) (LDbg (scan_state res)))
  /\ (all_digits 10 ds -> c <> "0"%char ->
      strtoull (ds +:+ rest) 0 = N.min (digits_value 10 ds) ULLONG_MAX
      /\ (LSymbolized st < Max opts ->
          resolves_first api (Style opts) (LDbg st)
            (N.min (digits_value 10 ds) ULLONG_MAX)
            (LDbg (Stream.read_loop api opts file ((ds +:+ rest) :: more) L st)))
      /\ (L < Max opts ->
          resolves_first api FullSymbol (LDbg st)
            (N.min (digits_value 10 ds) ULLONG_MAX)
            (LDbg (Legacy.read_loop api opts ((ds +:+ rest) :: more) L st))))
  /\ (all_digits 8 ds -> c = "0"%char ->
      strtoull (ds +:+ rest) 0 = N.min (digits_value 8 ds) ULLONG_MAX
      /\ (LSymbolized st < Max opts ->
          resolves_first api (Style opts) (LDbg st)
            (N.min (digits_value 8 ds) ULLONG_MAX)
            (LDbg (Stream.read_loop api opts file ((ds +:+ rest) :: more) L st)))
      /\ (L < Max opts ->
          resolves_first api FullSymbol (LDbg st)
            (N.min (digits_value 8 ds) ULLONG_MAX)
            (LDbg (Legacy.read_loop api opts ((ds +:+ rest) :: more) L st)))).
Proof.
  intros Hds Hd Hr Hp Hk HL.
  destruct (strtoull_digits ds rest c r Hds Hd Hr Hp) as (P16 & P10 & P8).
  assert (Hc : is_digit_in 16 c = true).
  { subst ds. unfold all_digits in Hd. simpl in Hd. inversion Hd; assumption. }
  destruct (digit_not_blank_nor_sign 16 c Hc) as (Hsp & _ & _).
  split; [split; [exact P16|]|split].
  - intros terminated lf Hlf Hm. rewrite <- P16.
    apply Mapped_line with (c := c) (r := (r +:+ rest)%string) (lf := lf);
      try assumption.
    + subst ds. apply append_cons.
    + rewrite (strchr_past_digits 16 ds rest Hd). exact Hlf.
  - intros Hd10 Hz. specialize (P10 Hd10 Hz). rewrite <- P10.
    split; [reflexivity|].
    split; intros Hm; [apply Stream_line|apply Legacy_line]; assumption.
  - intros Hd8 Hz. specialize (P8 Hd8 Hz). rewrite <- P8.
    split; [reflexivity|].
    split; intros Hm; [apply Stream_line|apply Legacy_line]; assumption.
Qed.

Lemma literal_without_marker_witness :
  (strtoull ("10" +:+ nl) 16 = 16
   /\ exists res,
        Mapped.scan nt_api default_opts (Mapped.terminated ("10" +:+ nl))
          (Mapped.scan_fuel default_opts ("10" +:+ nl)) "trace.txt" ("10" +:+ nl) 0
          (loop_start fresh) = Some res
        /\ resolves_first nt_api FullSymbol fresh 16 (LDbg (scan_state res)))
  /\ (strtoull "10" 0 = 10
      /\ resolves_first nt_api FullSymbol fresh 10
           (LDbg (Stream.read_loop nt_api default_opts "trace.txt"
                    ["10"; "0x1000"]%string 0 (loop_start fresh)))
      /\ resolves_first nt_api FullSymbol fresh 10
           (LDbg (Legacy.read_loop nt_api default_opts ["10"; "0x1000"]%string 0
                    (loop_start fresh))))
  /\ (strtoull "010" 0 = 8
      /\ resolves_first nt_api FullSymbol fresh 8
           (LDbg (Stream.read_loop nt_api default_opts "trace.txt"
                    ["010"; "0x1000"]%string 0 (loop_start fresh)))
      /\ resolves_first nt_api FullSymbol fresh 8
           (LDbg (Legacy.read_loop nt_api default_opts ["010"; "0x1000"]%string 0
                    (loop_start fresh)))).
Proof.
  split; [|split].
  - destruct (literal_without_marker nt_api default_opts "trace.txt" (loop_start fresh) 0
                "10" nl "1" "0" []) as [[H16 HM] _];
      [reflexivity|repeat constructor|reflexivity|reflexivity|reflexivity|reflexivity|].
    split; [exact H16|].
    apply (HM (Mapped.terminated ("10" +:+ nl)) nl eq_refl). right. reflexivity.
  - destruct (literal_without_marker nt_api default_opts "trace.txt" (loop_start fresh) 0
                "10" EmptyString "1" "0" ["0x1000"%string]) as (_ & H10 & _);
      [reflexivity|repeat constructor|exact I|reflexivity|reflexivity|reflexivity|].
    destruct H10 as (P & HS & HL); [repeat constructor|discriminate|].
    split; [exact P|]. split; [apply HS|apply HL]; reflexivity.
  - destruct (literal_without_marker nt_api default_opts "trace.txt" (loop_start fresh) 0
                "010" EmptyString "0" "10" ["0x1000"%string]) as (_ & _ & H8);
      [reflexivity|repeat constructor|exact I|reflexivity|reflexivity|reflexivity|].
    destruct H8 as (P & HS & HL); [repeat constructor|reflexivity|].
    split; [exact P|]. split; [apply HS|apply HL]; reflexivity.
Defined.

Lemma no_digit_not_zero s : no_digit_ahead 10 s -> starts_with_zero s = false.
Proof.
  destruct s as [|c r]; [reflexivity|]. simpl. intros H.
  destruct (Ascii.eqb c "0") eqn:E; [|reflexivity].
  apply Ascii.eqb_eq in E. subst c. vm_compute in H. discriminate.
Qed.

Lemma no_digit_no_marker s : no_digit_ahead 10 s -> hex_prefix s = None.
Proof.
  intros H. apply no_digit_not_zero in H.
  destruct s as [|z [|x r]]; try reflexivity. simpl in *. rewrite H. reflexivity.
Qed.

Lemma select_base_no_literal base s :
  base = 0 \/ base = 16 ->
  no_digit_ahead 10 s ->
  select_base base s = (if base =? 0 then 10 else 16, s).
Proof.
  intros Hb Hs. unfold select_base.
  rewrite (no_digit_no_marker s Hs), (no_digit_not_zero s Hs).
  destruct Hb as [-> | ->]; reflexivity.
Qed.

Lemma finish_zero neg : finish neg 0 = 0.
Proof. destruct neg; reflexivity. Qed.

Lemma accumulate_no_digit base s : no_digit_ahead base s -> accumulate base s 0 = 0.
Proof.
  destruct s as [|c r]; simpl; [reflexivity|]. unfold is_digit_in.
  destruct (digit_value c); [intros ->|]; reflexivity.
Qed.

(** The parse itself: a text that, past blanks and an optional sign, does
    not go on with a digit gives address zero, never an error. The text
    is the whole C string handed to [strtoull]. *)
Lemma strtoull_no_literal s :
  (no_digit_ahead 10 (after_sign s) -> strtoull s 0 = 0)
  /\ (no_digit_ahead 16 (after_sign s) -> strtoull s 16 = 0).
Proof.
  split; intros H; rewrite strtoull_after_sign.
  - rewrite select_base_no_literal by auto. simpl.
    rewrite accumulate_no_digit by exact H. apply finish_zero.
  - rewrite select_base_no_literal by auto using no_digit_16_10. simpl.
    rewrite accumulate_no_digit by exact H. apply finish_zero.
Qed.

(** C6 -- in the memory-mapped revision the parse is not confined to the
    line. On a view whose line 0 is empty and whose line 1 is "0x1000",
    line 0 is resolved as address 0x1000 (asked once, then served from
    the cache for line 1): two lines are symbolized and none fails. The
    getline revision, on the same bytes, parses line 0 to address zero,
    which fails to resolve and is counted as failed. *)
Lemma blank_line_takes_next_address :
  let View := (nl +:+ "0x1000" +:+ nl)%string in
  Stream.getlines View = [EmptyString; "0x1000"%string]
  /\ (exists st,
        Mapped.scan nt_api default_opts (Mapped.terminated View)
          (Mapped.scan_fuel default_opts View) "trace.txt" View 0 (loop_start fresh)
        = Some (Mapped.Finished st)
        /\ LSymbolized st = 2 /\ LFailed st = 0
        /\ Queries_ (LDbg st) = [(FullSymbol, 4096)]
        /\ written (LEvents st)
           = ("nt!KiPageFault+0x0" +:+ nl +:+ "nt!KiPageFault+0x0" +:+ nl)%string)
  /\ (let st := Stream.read_loop nt_api default_opts "trace.txt"
                  (Stream.getlines View) 0 (loop_start fresh) in
      LSymbolized st = 1 /\ LFailed st = 1
      /\ Queries_ (LDbg st) = [(FullSymbol, 0); (FullSymbol, 4096)]
      /\ written (LEvents st) = ("nt!KiPageFault+0x0" +:+ nl)%string).
Proof.
  split; [reflexivity|]. split.
  - eexists. vm_compute. repeat split; reflexivity.
  - vm_compute. repeat split; reflexivity.
Qed.


(** ** An unterminated last line *)




(** *** The parse of a terminated line stays within the view *)

Lemma ends_with_lf_cons c r :
  r <> EmptyString -> ends_with_lf (String c r) = ends_with_lf r.
Proof. destruct r; [congruence|reflexivity]. Qed.


















Lemma length_append (s t : string) :
  String.length (s +:+ t) = (String.length s + String.length t)%nat.
Proof.
  induction s as [|c r IH]; [reflexivity|]. rewrite append_cons. simpl. rewrite IH.
  reflexivity.
Qed.













(** ** The exit status *)

Lemma Mapped_jobs_loop_early api opts dirO noO fileO stdO total Inputs : forall w t w',
  Mapped.jobs_loop api opts dirO noO fileO stdO total Inputs w = Some (Some t, w') ->
  t = Mapped.Uncaught \/ t = Mapped.Fault.
Proof.
  induction Inputs as [|Input rest IH]; intros w t w' H; simpl in H; [discriminate|].
  destruct (ends_with (filename Input) symbolizer_suffix); [eauto|].
  destruct (negb stdO && fs_exists (WFs w) (output_path opts dirO noO fileO Input)
            && negb (Overwrite opts))%bool; [eauto|].
  destruct (Mapped.SymbolizeFile api opts _ Input _) as [[[[] | |] w2]|];
    try discriminate; eauto; injection H as <- _; auto.
Qed.

(** The model of the memory-mapped revision never runs short of fuel:
    [SymbolizeFile], the loop over the jobs and [main] always end. *)
Lemma Mapped_SymbolizeFile_total api opts w Input Output :
  Skip opts < U64_MOD ->
  exists r, Mapped.SymbolizeFile api opts w Input Output = Some r.
Proof.
  intros Hk. unfold Mapped.SymbolizeFile.
  destruct (fs_lookup (WFs w) Input) as [[View| |]|]; eauto.
  destruct (decide (View = EmptyString)); eauto.
  destruct (scan_total api opts (filename Input) (Mapped.terminated View)
              (Mapped.scan_fuel opts View) View 0
              (loop_start (WDbg w)) Hk (scan_fuel_enough opts View)) as [[st|st] ->];
    (destruct (bool_decide (Output = EmptyString)); eauto;
     destruct (fs_lookup (WFs w) Output) as [[]|]; eauto;
     destruct (decide (Output = Input)); eauto).
Qed.

Lemma Mapped_jobs_loop_total api opts dirO noO fileO stdO total Inputs : forall w,
  Skip opts < U64_MOD ->
  exists r, Mapped.jobs_loop api opts dirO noO fileO stdO total Inputs w = Some r.
Proof.
  induction Inputs as [|Input rest IH]; intros w Hk; simpl; eauto.
  destruct (ends_with (filename Input) symbolizer_suffix); eauto.
  destruct (negb stdO && fs_exists (WFs w) (output_path opts dirO noO fileO Input)
            && negb (Overwrite opts))%bool; eauto.
  match goal with
  | |- context [Mapped.SymbolizeFile api opts ?w1 Input ?o] =>
      destruct (Mapped_SymbolizeFile_total api opts w1 Input o Hk) as [[[[]| |] w2] ->]
  end; eauto.
Qed.

Lemma Mapped_main_total api opts InitOk w :
  Skip opts < U64_MOD ->
  exists r, Mapped.main api opts InitOk w = Some r.
Proof.
  intros Hk. unfold Mapped.main. destruct (negb InitOk); eauto.
  match goal with
  | |- context [Mapped.jobs_loop api opts ?a ?b ?c ?d ?t ?l ?w1] =>
      destruct (Mapped_jobs_loop_total api opts a b c d t l w1 Hk) as [[[t0|] w2] ->]
  end; eauto.
Qed.

(** The only exit status other than success that [main] returns is the
    one of a failed initialization. *)
Lemma Mapped_main_exit_status api opts InitOk w t w' :
  Mapped.main api opts InitOk w = Some (t, w') ->
  (InitOk = false -> t = Mapped.Exit EXIT_FAILURE)
  /\ (InitOk = true ->
      t = Mapped.Exit EXIT_SUCCESS \/ t = Mapped.Uncaught \/ t = Mapped.Fault).
Proof.
  unfold Mapped.main. destruct InitOk; simpl.
  - intros H. split; [discriminate|]. intros _.
    destruct (Mapped.jobs_loop _ _ _ _ _ _ _ _ _) as [[[t0|] w2]|] eqn:E;
      try discriminate; injection H as <- _; [right|left; reflexivity].
    eapply Mapped_jobs_loop_early, E.
  - intros [= <- _]. split; [reflexivity|discriminate].
Qed.

(** C9 -- the exit status on a configuration error. With a directory as
    input and a regular file as output, [main] prints its complaint and
    goes on: both traces are symbolized, one after the other, into the
    one output file, and the exit status is [EXIT_SUCCESS]. *)
Lemma directory_to_file_exits_zero :
  exists w',
    Mapped.main nt_api directory_to_file true (boot two_traces)
    = Some (Mapped.Exit EXIT_SUCCESS, w')
    /\ Printed BadOutputForDirectory ∈ WStdout w'
    /\ NumberFiles (WStats w') = 2
    /\ WFs w' !! "out.txt"%string = Some (File ("nt!KiPageFault+0x800" +:+ nl)).
Proof.
  eexists. split; [vm_compute; reflexivity|].
  split; [|split; vm_compute; reflexivity].
  apply list_elem_of_In. vm_compute. auto.
Qed.

(** ** The overwrite policy *)

(** With the flags as [main] computes them, an output path that exists
    is never the standard output. *)
Lemma existing_output_not_stdout opts (fs0 fs : gmap string Node) Input :
  fs_exists fs
    (output_path opts (is_directory fs0 (Output opts))
       (negb (fs_exists fs0 (Output opts))) (is_regular_file fs0 (Output opts)) Input)
  = true ->
  bool_decide (Output opts = EmptyString) = false.
Proof.
  intros H. apply bool_decide_eq_false. intros E. revert H.
  unfold output_path, is_directory, is_regular_file, fs_exists. rewrite E.
  unfold fs_lookup. rewrite !decide_True by reflexivity. simpl.
  rewrite ?decide_True by reflexivity. discriminate.
Qed.

(** C8, as stated, fails when the output cannot be created or the input
    cannot be opened. With the input named as its own output, the
    memory-mapped revision announces the overwriting, fails to create
    the output over the file it has mapped, and ends on the exception:
    the file is left as it was. And when the only entry of the input
    directory is a directory, the output generated for it exists and
    overwriting is enabled and announced, the existing file is left as it
    was, in both revisions. *)
Lemma overwrite_counterexample :
  (Overwrite in_place = true
   /\ exists w',
        Mapped.main nt_api in_place true (boot one_trace) = Some (Mapped.Uncaught, w')
        /\ Printed (WillBeOverwritten "a.txt") ∈ WStdout w'
        /\ WFs w' !! "a.txt"%string = Some (File ("0x1000" +:+ nl)))
  /\ Overwrite directory_to_directory = true
  /\ (exists w',
        Mapped.main nt_api directory_to_directory true (boot nested)
        = Some (Mapped.Exit EXIT_SUCCESS, w')
        /\ Printed (WillBeOverwritten "out\sub.symbolizer") ∈ WStdout w'
        /\ WFs w' !! "out\sub.symbolizer"%string = Some (File "old"))
  /\ (exists w',
        Stream.main nt_api directory_to_directory true (boot nested)
        = (EXIT_SUCCESS, w')
        /\ Printed (WillBeOverwritten "out\sub.symbolizer") ∈ WStdout w'
        /\ WFs w' !! "out\sub.symbolizer"%string = Some (File "old")).
Proof.
  split; [split; [reflexivity|]|split; [reflexivity|split]].
  - eexists. split; [vm_compute; reflexivity|].
    split; [|vm_compute; reflexivity].
    apply list_elem_of_In. vm_compute. auto.
  - eexists. split; [vm_compute; reflexivity|].
    split; [|vm_compute; reflexivity].
    apply list_elem_of_In. vm_compute. auto.
  - eexists. split; [vm_compute; reflexivity|].
    split; [|vm_compute; reflexivity].
    apply list_elem_of_In. vm_compute. auto.
Qed.

Lemma commit_file_fs w fs Output st :
  Output <> EmptyString ->
  WFs (commit w (<[Output := File EmptyString]> fs) Output st)
  = <[Output := File (written (LEvents st))]> fs.
Proof.
  intros Hne. unfold commit. rewrite decide_False by exact Hne. simpl.
  apply insert_insert_eq.
Qed.

Lemma fs_lookup_some_nonempty (fs : gmap string Node) p n :
  fs_lookup fs p = Some n -> p <> EmptyString.
Proof.
  unfold fs_lookup. destruct (decide (p = EmptyString)); [discriminate|auto].
Qed.


(** C8, amended -- for a job (an input that is not passed over for its
    name) whose output path exists. With overwriting disabled the job is
    not processed: what is handed to the next jobs (or returned, in the
    getline revision, which ends the batch there) is the world as it was,
    the file system, the engine object and the statistics untouched, with
    one message more. With overwriting enabled, when the existing output
    is a regular file other than the input and the input can be opened
    (and, in the memory-mapped revision, mapped: it is not empty and does
    not fill its last page), the output file afterwards holds exactly
    what the per-file loop has written, whatever it held before. *)
Theorem overwrite_policy
  (api : Api) (opts : Opts_t) (dirO noO fileO : bool) (total : N)
  (Input : string) (rest : list string) (w : World) :
  ends_with (filename Input) symbolizer_suffix = false ->
  fs_exists (WFs w) (output_path opts dirO noO fileO Input) = true ->
  (Overwrite opts = false ->
     exists w1,
       Mapped.jobs_loop api opts dirO noO fileO false total (Input :: rest) w
       = Mapped.jobs_loop api opts dirO noO fileO false total rest w1
       /\ Stream.jobs_loop api opts dirO noO fileO false total (Input :: rest) w
          = (Some EXIT_SUCCESS, w1)
       /\ WFs w1 = WFs w /\ WDbg w1 = WDbg w /\ WStats w1 = WStats w
       /\ WStdout w1
          = WStdout w ++ [Printed (AlreadyExists (output_path opts dirO noO fileO Input))])
  /\ (Overwrite opts = true ->
      forall View old,
      fs_lookup (WFs w) (output_path opts dirO noO fileO Input) = Some (File old) ->
      fs_lookup (WFs w) Input = Some (File View) ->
      output_path opts dirO noO fileO Input <> Input ->
      Skip opts < U64_MOD ->
      (View <> EmptyString ->
       Mapped.terminated View = true ->
       exists st w',
         Mapped.scan api opts (Mapped.terminated View) (Mapped.scan_fuel opts View)
           (filename Input) View 0 (loop_start (WDbg w)) = Some (Mapped.Finished st)
         /\ Mapped.jobs_loop api opts dirO noO fileO false total (Input :: rest) w
            = Mapped.jobs_loop api opts dirO noO fileO false total rest w'
         /\ WFs w' = <[output_path opts dirO noO fileO Input
                        := File (written (LEvents st))]> (WFs w))
      /\ (exists w',
            Stream.jobs_loop api opts dirO noO fileO false total (Input :: rest) w
            = Stream.jobs_loop api opts dirO noO fileO false total rest w'
            /\ WFs w' = <[output_path opts dirO noO fileO Input
                           := File (written (LEvents
                                (Stream.read_loop api opts (filename Input)
                                   (Stream.getlines View) 0 (loop_start (WDbg w)))))]>
                          (WFs w))).
Proof.
  intros Hsuf Hex.
  set (Out := output_path opts dirO noO fileO Input) in *.
  split.
  - intros Hov. exists (say (AlreadyExists Out) w).
    simpl. fold Out. rewrite Hsuf, Hex, Hov. simpl. repeat split; reflexivity.
  - intros Hov View old HO HI Hne Hk.
    assert (HOne : Out <> EmptyString) by (eapply fs_lookup_some_nonempty, HO).
    split.
    + intros HV HT. rewrite HT.
      destruct (scan_total_terminated api opts (filename Input)
                  (Mapped.scan_fuel opts View) View 0
                  (loop_start (WDbg w)) Hk (scan_fuel_enough opts View)) as [st Hst].
      exists st. eexists. split; [exact Hst|].
      simpl. fold Out. rewrite Hsuf, Hex, Hov. simpl.
      rewrite (SymbolizeFile_done api opts _ Input Out View st); simpl; auto.
      * split; [reflexivity|]. unfold opened. rewrite decide_False by exact HOne.
        simpl. apply commit_file_fs, HOne.
      * right. split; [exact Hne|]. right. eauto.
      * rewrite HT. exact Hst.
    + eexists. simpl. fold Out. rewrite Hsuf, Hex, Hov. simpl.
      unfold Stream.SymbolizeFile. simpl. rewrite HI, HO.
      rewrite bool_decide_false by exact HOne.
      assert (fs_lookup (<[Out := File EmptyString]> (WFs w)) Input = Some (File View)) as ->.
      { revert HI. unfold fs_lookup. destruct (decide (Input = EmptyString)); [auto|].
        intros HI. rewrite lookup_insert_ne by exact Hne. exact HI. }
      split; [reflexivity|]. simpl. apply commit_file_fs, HOne.
Qed.

Lemma overwrite_policy_witness :
  let w := boot two_traces in
  let keep := with_overwrite directory_to_file false in
  let Out := output_path directory_to_file false false true "traces\a.txt" in
  (exists w1,
     Mapped.jobs_loop nt_api keep false false true false 2
       ["traces\a.txt"; "traces\b.txt"]%string w
     = Mapped.jobs_loop nt_api keep false false true false 2 ["traces\b.txt"%string] w1
     /\ Stream.jobs_loop nt_api keep false false true false 2
          ["traces\a.txt"; "traces\b.txt"]%string w
        = (Some EXIT_SUCCESS, w1)
     /\ WFs w1 = WFs w /\ WDbg w1 = WDbg w /\ WStats w1 = WStats w
     /\ WStdout w1 = [Printed (AlreadyExists "out.txt")])
  /\ (exists st w',
        Mapped.scan nt_api directory_to_file (Mapped.terminated ("0x1000" +:+ nl))
          (Mapped.scan_fuel directory_to_file ("0x1000" +:+ nl)) "a.txt"
          ("0x1000" +:+ nl) 0 (loop_start fresh) = Some (Mapped.Finished st)
        /\ Mapped.jobs_loop nt_api directory_to_file false false true false 2
             ["traces\a.txt"; "traces\b.txt"]%string w
           = Mapped.jobs_loop nt_api directory_to_file false false true false 2
               ["traces\b.txt"%string] w'
        /\ WFs w' = <[Out := File (written (LEvents st))]> (WFs w))
  /\ (exists w',
        Stream.jobs_loop nt_api directory_to_file false false true false 2
          ["traces\a.txt"; "traces\b.txt"]%string w
        = Stream.jobs_loop nt_api directory_to_file false false true false 2
            ["traces\b.txt"%string] w'
        /\ WFs w' = <[Out := File ("nt!KiPageFault+0x0" +:+ nl)]> (WFs w)).
Proof.
  intros w keep Out. split.
  - destruct (overwrite_policy nt_api keep false false true 2
                "traces\a.txt" ["traces\b.txt"%string] w) as [H _].
    + vm_compute. reflexivity.
    + vm_compute. reflexivity.
    + exact (H eq_refl).
  - destruct (overwrite_policy nt_api directory_to_file false false true 2
                "traces\a.txt" ["traces\b.txt"%string] w) as [_ H].
    + vm_compute. reflexivity.
    + vm_compute. reflexivity.
    + destruct (H eq_refl ("0x1000" +:+ nl)%string "old"%string) as [Hm Hs].
      * vm_compute. reflexivity.
      * vm_compute. reflexivity.
      * discriminate.
      * vm_compute. reflexivity.
      * split; [|exact Hs]. apply Hm; [discriminate|vm_compute; reflexivity].
Defined.

(** * Further properties of the code *)

(** ** The cache over a run and over a batch *)

Lemma Symbolize_all_app api l1 : forall d l2,
  Symbolize_all api d (l1 ++ l2) = Symbolize_all api (Symbolize_all api d l1) l2.
Proof.
  induction l1 as [|[style a] r IH]; intros d l2; simpl; [reflexivity|]. apply IH.
Qed.

Lemma coherent_answer api style d a :
  stateless api -> coherent api style d ->
  (Symbolize api d a style).1 = SymbolResolver api [] (style, a).
Proof.
  intros Hst Hco. destruct (Symbolize api d a style) as [r d'] eqn:H.
  apply Symbolize_inv in H. simpl.
  destruct H as [(s & Hc & -> & _)|[(_ & Hr & -> & _)|(s & _ & Hr & -> & _)]].
  - destruct (Hco a) as [H1 _]. destruct (H1 s Hc) as [-> _]. reflexivity.
  - rewrite Hst in Hr. congruence.
  - rewrite Hst in Hr. congruence.
Qed.

Lemma reached_coherent api style d :
  stateless api -> reached api style d -> coherent api style d.
Proof.
  intros Hst [addrs ->]. apply coherent_all; [exact Hst|apply coherent_fresh].
Qed.

Lemma reached_fresh api style : reached api style fresh.
Proof. exists []. reflexivity. Qed.

Lemma reached_more api style d addrs :
  reached api style d ->
  reached api style (Symbolize_all api d (map (pair style) addrs)).
Proof.
  intros [l ->]. exists (l ++ addrs). rewrite map_app, Symbolize_all_app. reflexivity.
Qed.

(** X1 -- the memoization is transparent. With an engine whose answers
    do not depend on earlier requests, whatever addresses were resolved
    before under the style of the run, a call returns exactly what the
    engine answers for its address: the cache never changes an answer,
    be it a symbol or a failure. *)
Theorem memoization_is_transparent
  (api : Api) (style : TraceStyle_t) (addrs : list N) (a : N) :
  stateless api ->
  (Symbolize api (Symbolize_all api fresh (map (pair style) addrs)) a style).1
  = SymbolResolver api [] (style, a).
Proof.
  intros Hst. apply coherent_answer; [exact Hst|].
  apply reached_coherent; [exact Hst|]. exists addrs. reflexivity.
Qed.

Lemma memoization_is_transparent_witness :
  (Symbolize nt_api (Symbolize_all nt_api fresh (map (pair Modoff) [4112; 3; 4112])) 4112
     Modoff).1
  = SymbolResolver nt_api [] (Modoff, 4112).
Proof.
  apply (memoization_is_transparent nt_api Modoff [4112; 3; 4112] 4112).
  exact nt_api_stateless.
Defined.

Lemma commit_dbg w fs Output st : WDbg (commit w fs Output st) = LDbg st.
Proof. unfold commit. destruct (decide (Output = EmptyString)); reflexivity. Qed.

Lemma Mapped_SymbolizeFile_reached api opts w Input Output o w' :
  Mapped.SymbolizeFile api opts w Input Output = Some (o, w') ->
  reached api (Style opts) (WDbg w) -> reached api (Style opts) (WDbg w').
Proof.
  unfold Mapped.SymbolizeFile. intros H Hr.
  destruct (fs_lookup (WFs w) Input) as [[View| |]|];
    try (injection H as <- <-; exact Hr).
  destruct (decide (View = EmptyString)); [injection H as <- <-; exact Hr|].
  destruct (if bool_decide (Output = EmptyString) then _ else _) as [fs|];
    [|injection H as <- <-; exact Hr].
  destruct (Mapped.scan api opts _ _ _ View 0 _) as [r|] eqn:E; [|discriminate].
  apply scan_calls in E. destruct E as [addrs E]. simpl in E.
  destruct r as [st|st]; injection H as <- <-; simpl in E;
    [rewrite commit_dbg|simpl]; rewrite E; apply reached_more, Hr.
Qed.

Lemma Stream_SymbolizeFile_reached api opts w Input Output :
  reached api (Style opts) (WDbg w) ->
  reached api (Style opts) (WDbg (Stream.SymbolizeFile api opts w Input Output).2).
Proof.
  unfold Stream.SymbolizeFile. intros Hr.
  destruct (fs_lookup (WFs w) Input) as [[View| |]|]; try exact Hr.
  destruct (if bool_decide (Output = EmptyString) then _ else _) as [fs|];
    [|exact Hr].
  simpl. rewrite commit_dbg.
  match goal with
  | |- context [Stream.read_loop api opts ?f ?l ?n ?s] =>
      destruct (read_loop_calls api opts f l n s) as [addrs ->]
  end.
  simpl. apply reached_more, Hr.
Qed.

Lemma Mapped_jobs_loop_reached api opts dirO noO fileO stdO total Inputs :
  forall w r w',
  Mapped.jobs_loop api opts dirO noO fileO stdO total Inputs w = Some (r, w') ->
  reached api (Style opts) (WDbg w) -> reached api (Style opts) (WDbg w').
Proof.
  induction Inputs as [|Input rest IH]; intros w r w' H Hr; simpl in H.
  - injection H as <- <-. exact Hr.
  - destruct (ends_with (filename Input) symbolizer_suffix); [eapply IH; eauto|].
    destruct (negb stdO && fs_exists (WFs w) (output_path opts dirO noO fileO Input)
              && negb (Overwrite opts))%bool; [eapply IH; eauto|].
    match type of H with
    | context [Mapped.SymbolizeFile api opts ?w1 Input ?o] =>
        destruct (Mapped.SymbolizeFile api opts w1 Input o) as [[[[]| |] w2]|] eqn:E;
          try discriminate;
          assert (Hr2 : reached api (Style opts) (WDbg w2))
            by (eapply Mapped_SymbolizeFile_reached;
                [exact E|destruct (negb stdO && _)%bool; exact Hr])
    end.
    + eapply IH; [exact H|exact Hr2].
    + injection H as <- <-. exact Hr2.
    + injection H as <- <-. exact Hr2.
    + injection H as <- <-. exact Hr2.
Qed.

Lemma Stream_jobs_loop_reached api opts dirO noO fileO stdO total Inputs :
  forall w,
  reached api (Style opts) (WDbg w) ->
  reached api (Style opts)
    (WDbg (Stream.jobs_loop api opts dirO noO fileO stdO total Inputs w).2).
Proof.
  induction Inputs as [|Input rest IH]; intros w Hr; simpl; [exact Hr|].
  destruct (ends_with (filename Input) symbolizer_suffix); [apply IH, Hr|].
  destruct (negb stdO && fs_exists (WFs w) (output_path opts dirO noO fileO Input)
            && negb (Overwrite opts))%bool; [exact Hr|].
  match goal with
  | |- context [Stream.SymbolizeFile api opts ?w1 Input ?o] =>
      pose proof (Stream_SymbolizeFile_reached api opts w1 Input o) as Hs;
      destruct (Stream.SymbolizeFile api opts w1 Input o) as [[] w2]
  end; simpl in Hs.
  - apply IH. simpl. apply Hs. destruct (negb stdO && _)%bool; exact Hr.
  - simpl. apply Hs. destruct (negb stdO && _)%bool; exact Hr.
Qed.

(** X2 -- one cache for the whole batch. With an engine whose answers do
    not depend on earlier requests, when [main] is over (whatever files
    were processed, skipped or failed) every address in the cache holds
    the engine's answer for it under the style of the run, and the engine
    was asked for it exactly once, however many files and lines contain
    it. Both revisions of [main]. *)
Theorem batch_asks_engine_once
  (api : Api) (opts : Opts_t) (InitOk : bool) (fs : gmap string Node) :
  stateless api ->
  Skip opts < U64_MOD ->
  (exists t w',
     Mapped.main api opts InitOk (boot fs) = Some (t, w')
     /\ forall a s, Cache_ (WDbg w') !! a = Some s ->
          SymbolResolver api [] (Style opts, a) = Some s
          /\ invocations a (Queries_ (WDbg w')) = 1%nat)
  /\ (forall a s,
        Cache_ (WDbg (Stream.main api opts InitOk (boot fs)).2) !! a = Some s ->
        SymbolResolver api [] (Style opts, a) = Some s
        /\ invocations a (Queries_ (WDbg (Stream.main api opts InitOk (boot fs)).2))
           = 1%nat).
Proof.
  intros Hst Hk. split.
  - destruct (Mapped_main_total api opts InitOk (boot fs) Hk) as [[t w'] H].
    exists t, w'. split; [exact H|].
    assert (Hr : reached api (Style opts) (WDbg w')).
    { revert H. unfold Mapped.main. destruct (negb InitOk).
      - intros [= <- <-]. apply reached_fresh.
      - destruct (Mapped.jobs_loop _ _ _ _ _ _ _ _ _) as [[[t0|] w2]|] eqn:E;
          try discriminate; intros [= <- <-]; simpl;
          (eapply Mapped_jobs_loop_reached; [exact E|]);
          destruct (_ && _)%bool; apply reached_fresh. }
    intros a s Hs. destruct (reached_coherent api _ _ Hst Hr a) as [H1 _]. auto.
  - assert (Hr : reached api (Style opts)
                   (WDbg (Stream.main api opts InitOk (boot fs)).2)).
    { unfold Stream.main. destruct (negb InitOk); [apply reached_fresh|].
      match goal with
      | |- context [Stream.jobs_loop api opts ?a ?b ?c ?d ?t ?l ?w1] =>
          pose proof (Stream_jobs_loop_reached api opts a b c d t l w1) as Hj;
          destruct (Stream.jobs_loop api opts a b c d t l w1) as [[code|] w2]
      end; simpl in *; apply Hj; destruct (_ && _)%bool; apply reached_fresh. }
    intros a s Hs. destruct (reached_coherent api _ _ Hst Hr a) as [H1 _]. auto.
Qed.

Lemma batch_asks_engine_once_witness :
  (exists t w',
     Mapped.main nt_api directory_to_file true (boot two_traces) = Some (t, w')
     /\ forall a s, Cache_ (WDbg w') !! a = Some s ->
          SymbolResolver nt_api [] (FullSymbol, a) = Some s
          /\ invocations a (Queries_ (WDbg w')) = 1%nat)
  /\ (forall a s,
        Cache_ (WDbg (Stream.main nt_api directory_to_file true (boot two_traces)).2)
          !! a = Some s ->
        SymbolResolver nt_api [] (FullSymbol, a) = Some s
        /\ invocations a
             (Queries_ (WDbg (Stream.main nt_api directory_to_file true
                                (boot two_traces)).2)) = 1%nat).
Proof.
  apply (batch_asks_engine_once nt_api directory_to_file true two_traces).
  - exact nt_api_stateless.
  - vm_compute. reflexivity.
Defined.

(** ** The end of the mapped view *)

Lemma strchr_reaches_end s c :
  strchr s c = None -> has_nul s = false -> strchr_reads_end s c = true.
Proof.
  induction s as [|a r IH]; simpl; [reflexivity|].
  destruct (Ascii.eqb a c); [discriminate|].
  destruct (Ascii.eqb a NUL); [discriminate|]. simpl. exact IH.
Qed.

Lemma has_nul_suffix s c p : strchr s c = Some p -> has_nul s = false -> has_nul p = false.
Proof.
  induction s as [|a r IH]; simpl; [discriminate|].
  destruct (Ascii.eqb a c).
  - intros [= <-] H. exact H.
  - destruct (Ascii.eqb a NUL); [discriminate|]. simpl. exact IH.
Qed.

Lemma has_nul_next p : has_nul p = false -> has_nul (next p) = false.
Proof.
  destruct p as [|a r]; [reflexivity|]. simpl. intros H.
  apply orb_false_elim in H. apply H.
Qed.

(** On a view that no zero byte follows and that holds none, with the
    ceiling out of reach, the loop ends on a read past the view. *)
Lemma scan_runs_off api opts file fuel : forall Line L st,
  Skip opts < U64_MOD ->
  has_nul Line = false ->
  Max opts = 0 \/ LSymbolized st + N.of_nat (length (view_lines Line)) <= Max opts ->
  (length (view_lines Line) * (N.to_nat (Skip opts) + 1)
   + N.to_nat (Skip opts - L) + 1 <= fuel)%nat ->
  exists st', Mapped.scan api opts false fuel file Line L st = Some (Mapped.RanOff st').
Proof.
  induction fuel as [|fuel IH]; intros Line L st Hk Hz Hm Hf; [lia|].
  simpl. destruct (strchr Line LF) as [lf|] eqn:Hlf.
  - rewrite (view_lines_strchr_some Line lf Hlf) in Hf, Hm. simpl in Hf, Hm.
    assert (((0 <? Max opts) && (Max opts <=? LSymbolized st))%bool = false) as ->.
    { destruct (N.ltb_spec 0 (Max opts)); [|reflexivity].
      destruct (N.leb_spec (Max opts) (LSymbolized st)); [lia|reflexivity]. }
    pose proof (has_nul_next lf (has_nul_suffix Line LF lf Hlf Hz)) as Hz'.
    destruct (N.ltb_spec L (Skip opts)) as [Hlt|Hge].
    + apply IH; try assumption.
      * rewrite (view_lines_strchr_some Line lf Hlf). simpl. lia.
      * rewrite incr_small by lia.
        rewrite (view_lines_strchr_some Line lf Hlf). simpl. lia.
    + assert (Hany : forall L', (N.to_nat (Skip opts - L') <= N.to_nat (Skip opts))%nat)
        by (intros; lia).
      destruct (strtoull_reads_end Line 16); [eauto|].
      destruct (Symbolize api (LDbg st) (strtoull Line 16) (Style opts)) as [[s|] d'].
      * apply IH; try assumption.
        { simpl. pose proof (incr_le (LSymbolized st)). lia. }
        { specialize (Hany (incr L)). lia. }
      * destruct (strchr_reads_end Line CR); [eauto|].
        apply IH; try assumption.
        { simpl. lia. }
        { specialize (Hany (incr L)). lia. }
  - rewrite (strchr_reaches_end Line LF Hlf Hz). eauto.
Qed.

(** X3 -- a trace that fills its last page is read past its end. When
    the file holds no zero byte and its size is a multiple of the page
    size, the output can be created and the ceiling on symbolized lines
    is out of reach, [SymbolizeFile] does not return: one of its reads
    ([strchr] for the next line feed or for a carriage return, or
    [strtoull]) runs past the mapped view. *)
Theorem page_filling_trace_is_read_past
  (api : Api) (opts : Opts_t) (w : World) (Input Output View : string) :
  fs_lookup (WFs w) Input = Some (File View) ->
  View <> EmptyString ->
  Mapped.terminated View = false ->
  has_nul View = false ->
  creatable (WFs w) Input Output ->
  Skip opts < U64_MOD ->
  Max opts = 0 \/ N.of_nat (length (view_lines View)) <= Max opts ->
  exists w',
    Mapped.SymbolizeFile api opts w Input Output = Some (Mapped.ReadPastView, w').
Proof.
  intros HI HV HT Hz HO Hk Hm.
  destruct (scan_runs_off api opts (filename Input) (Mapped.scan_fuel opts View) View 0
              (loop_start (WDbg w)) Hk Hz) as [st Hst].
  { simpl. destruct Hm; [left; assumption|right; lia]. }
  { apply scan_fuel_enough. }
  unfold Mapped.SymbolizeFile. rewrite HI. rewrite decide_False by exact HV.
  rewrite HT, Hst.
  destruct HO as [->|(Hne & Hfree)].
  - rewrite bool_decide_true by reflexivity. eauto.
  - destruct (bool_decide (Output = EmptyString)); [eauto|].
    rewrite decide_False by exact Hne.
    destruct Hfree as [->|[old ->]]; eauto.
Qed.

Lemma page_filling_trace_is_read_past_witness :
  String.length full_page = 4096%nat
  /\ exists w',
       Mapped.SymbolizeFile nt_api default_opts
         (boot {[ "trace.txt"%string := File full_page ]}) "trace.txt" EmptyString
       = Some (Mapped.ReadPastView, w').
Proof.
  split; [vm_compute; reflexivity|].
  apply (page_filling_trace_is_read_past nt_api default_opts
           (boot {[ "trace.txt"%string := File full_page ]}) "trace.txt" EmptyString
           full_page).
  - vm_compute. reflexivity.
  - intros E. vm_compute in E. discriminate.
  - vm_compute. reflexivity.
  - vm_compute. reflexivity.
  - left. reflexivity.
  - vm_compute. reflexivity.
  - right. vm_compute. discriminate.
Defined.

(** X4 -- a trace that does not fill its last page is never read past
    its end: whatever it holds and whatever the options, [SymbolizeFile]
    returns or leaves on the exception of [fmt::output_file]. *)
Theorem terminated_view_is_not_left
  (api : Api) (opts : Opts_t) (w : World) (Input Output View : string) :
  fs_lookup (WFs w) Input = Some (File View) ->
  Mapped.terminated View = true ->
  Skip opts < U64_MOD ->
  exists o w',
    Mapped.SymbolizeFile api opts w Input Output = Some (o, w')
    /\ o <> Mapped.ReadPastView.
Proof.
  intros HI HT Hk. unfold Mapped.SymbolizeFile. rewrite HI, HT.
  destruct (scan_total_terminated api opts (filename Input) (Mapped.scan_fuel opts View)
              View 0 (loop_start (WDbg w)) Hk (scan_fuel_enough opts View)) as [st ->].
  destruct (decide (View = EmptyString)); [eexists _, _; split; [reflexivity|discriminate]|].
  destruct (bool_decide (Output = EmptyString));
    [eexists _, _; split; [reflexivity|discriminate]|].
  destruct (fs_lookup (WFs w) Output) as [[]|];
    try (eexists _, _; split; [reflexivity|discriminate]);
    destruct (decide (Output = Input));
    eexists _, _; (split; [reflexivity|discriminate]).
Qed.

Lemma terminated_view_is_not_left_witness :
  exists o w',
    Mapped.SymbolizeFile nt_api default_opts (boot two_traces) "traces\b.txt" "out.txt"
    = Some (o, w')
    /\ o <> Mapped.ReadPastView.
Proof.
  apply (terminated_view_is_not_left nt_api default_opts (boot two_traces)
           "traces\b.txt" "out.txt" ("0x1800" +:+ nl +:+ "garbage" +:+ nl));
    vm_compute; reflexivity.
Defined.

(** ** What a job may touch *)

Lemma commit_fs_frame w fs Output st p :
  p <> Output -> WFs (commit w fs Output st) !! p = fs !! p.
Proof.
  intros Hp. unfold commit. destruct (decide (Output = EmptyString)); simpl;
    [reflexivity|]. apply lookup_insert_ne. congruence.
Qed.

(** X5 -- the memory-mapped [SymbolizeFile] always comes to an outcome
    (it returns, throws, or reads past the view); by then it has changed
    the file system at its output path at most, and never its input
    file; when it returns [false] or throws, the file system, the engine
    object and the statistics are as they were. *)
Theorem SymbolizeFile_touches_its_output_only
  (api : Api) (opts : Opts_t) (w : World) (Input Output : string) :
  Skip opts < U64_MOD ->
  exists o w',
    Mapped.SymbolizeFile api opts w Input Output = Some (o, w')
    /\ (forall p, p <> Output -> WFs w' !! p = WFs w !! p)
    /\ WFs w' !! Input = WFs w !! Input
    /\ (o = Mapped.Done false \/ o = Mapped.Threw ->
        WFs w' = WFs w /\ WDbg w' = WDbg w /\ WStats w' = WStats w).
Proof.
  intros Hk. unfold Mapped.SymbolizeFile.
  destruct (fs_lookup (WFs w) Input) as [[View| |]|] eqn:HI;
    try (eexists _, _; split; [reflexivity|]; simpl; auto).
  destruct (decide (View = EmptyString));
    [eexists _, _; split; [reflexivity|]; simpl; auto|].
  destruct (scan_total api opts (filename Input) (Mapped.terminated View)
              (Mapped.scan_fuel opts View) View 0 (loop_start (WDbg w)) Hk
              (scan_fuel_enough opts View)) as [r ->].
  destruct (bool_decide_reflect (Output = EmptyString)) as [->|Hne].
  - destruct r as [st|st]; eexists _, _; (split; [reflexivity|]);
      unfold commit; rewrite ?decide_True by reflexivity; simpl;
      (split; [auto|]); (split; [reflexivity|]); intros [H|H]; discriminate.
  - assert (Hthrew : exists o w',
              Some (Mapped.Threw, w) = Some (o, w')
              /\ (forall p, p <> Output -> WFs w' !! p = WFs w !! p)
              /\ WFs w' !! Input = WFs w !! Input
              /\ (o = Mapped.Done false \/ o = Mapped.Threw ->
                  WFs w' = WFs w /\ WDbg w' = WDbg w /\ WStats w' = WStats w))
      by (eexists _, _; split; [reflexivity|]; auto).
    destruct (fs_lookup (WFs w) Output) as [[]|]; try exact Hthrew;
      (destruct (decide (Output = Input)) as [He|Hd]; [exact Hthrew|]);
      (destruct r as [st|st]; eexists _, _; (split; [reflexivity|]);
       unfold commit; rewrite ?decide_False by exact Hne; simpl;
       (split; [intros p Hp; rewrite ?lookup_insert_ne by congruence; reflexivity|]);
       (split; [rewrite ?lookup_insert_ne by congruence; reflexivity|]);
       intros [H|H]; discriminate).
Qed.

Lemma SymbolizeFile_touches_its_output_only_witness :
  exists o w',
    Mapped.SymbolizeFile nt_api default_opts (boot two_traces) "traces\a.txt" "out.txt"
    = Some (o, w')
    /\ (forall p, p <> "out.txt"%string -> WFs w' !! p = two_traces !! p)
    /\ WFs w' !! "traces\a.txt"%string = two_traces !! "traces\a.txt"%string.
Proof.
  destruct (SymbolizeFile_touches_its_output_only nt_api default_opts (boot two_traces)
              "traces\a.txt" "out.txt") as (o & w' & H1 & H2 & H3 & _).
  - vm_compute. reflexivity.
  - exists o, w'. split; [exact H1|]. split; [exact H2|exact H3].
Defined.

(** X6 -- a trace named as its own output. The getline revision opens
    the input, truncates it by opening the output, reads nothing and
    reports success: the trace is lost, no line is processed. The
    memory-mapped revision cannot create the output over the file it has
    mapped: it leaves on the exception and the trace is intact. *)
Theorem trace_named_as_its_own_output
  (api : Api) (opts : Opts_t) (w : World) (Input content : string) :
  fs_lookup (WFs w) Input = Some (File content) ->
  content <> EmptyString ->
  (exists w',
     Stream.SymbolizeFile api opts w Input Input = (true, w')
     /\ WFs w' = <[Input := File EmptyString]> (WFs w)
     /\ WDbg w' = WDbg w
     /\ WStdout w' = WStdout w)
  /\ Mapped.SymbolizeFile api opts w Input Input = Some (Mapped.Threw, w).
Proof.
  intros HI HV.
  assert (Hne : Input <> EmptyString) by (eapply fs_lookup_some_nonempty, HI).
  split.
  - unfold Stream.SymbolizeFile. rewrite HI.
    rewrite bool_decide_false by exact Hne.
    assert (fs_lookup (<[Input := File EmptyString]> (WFs w)) Input
            = Some (File EmptyString)) as ->.
    { unfold fs_lookup. rewrite decide_False by exact Hne. apply lookup_insert_eq. }
    eexists. split; [reflexivity|]. unfold commit.
    rewrite decide_False by exact Hne. simpl.
    split; [apply insert_insert_eq|]. split; [reflexivity|apply app_nil_r].
  - unfold Mapped.SymbolizeFile. rewrite HI.
    rewrite decide_False by exact HV. rewrite bool_decide_false by exact Hne.
    rewrite decide_True by reflexivity. reflexivity.
Qed.

Lemma trace_named_as_its_own_output_witness :
  (exists w',
     Stream.SymbolizeFile nt_api in_place (boot one_trace) "a.txt" "a.txt" = (true, w')
     /\ WFs w' = <["a.txt"%string := File EmptyString]> one_trace
     /\ WDbg w' = fresh
     /\ WStdout w' = [])
  /\ Mapped.SymbolizeFile nt_api in_place (boot one_trace) "a.txt" "a.txt"
     = Some (Mapped.Threw, boot one_trace).
Proof.
  apply (trace_named_as_its_own_output nt_api in_place (boot one_trace) "a.txt"
           ("0x1000" +:+ nl)).
  - vm_compute. reflexivity.
  - discriminate.
Defined.

(** ** The skip of the memory-mapped revision *)

(** X7 -- the memory-mapped revision skips nothing. On a view followed
    by a zero byte and with the ceiling out of reach, whatever [Skip]
    is, every line of the view is processed, from the first one on:
    [Skip] only shifts the numbers the lines are given, the first line
    being numbered [Skip]. *)
Theorem Mapped_skip_shifts_line_numbers
  (api : Api) (opts : Opts_t) (file : string) (View : string) (d : DbgEng_t) :
  Mapped.terminated View = true ->
  Skip opts + N.of_nat (length (view_lines View)) < U64_MOD ->
  Max opts = 0 \/ N.of_nat (length (view_lines View)) <= Max opts ->
  exists st,
    Mapped.scan api opts (Mapped.terminated View) (Mapped.scan_fuel opts View) file View
      0 (loop_start d) = Some (Mapped.Finished st)
    /\ st = per_line api opts 16 failed_text file (view_lines View) (Skip opts)
              (loop_start d)
    /\ LSymbolized st + LFailed st = N.of_nat (length (view_lines View)).
Proof.
  intros HT Hw Hm. rewrite HT.
  eexists. split; [apply scan_all_lines; assumption|]. split; [reflexivity|].
  destruct (per_line_counts api opts 16 failed_text file (view_lines View)
              (Skip opts) d) as [C1 C2]; [lia|].
  rewrite C1, C2.
  pose proof (answers_split (answers_of api opts 16 d (view_lines View))) as Hs.
  rewrite answers_of_length in Hs. lia.
Qed.

Lemma Mapped_skip_shifts_line_numbers_witness :
  let opts := with_window (with_overwrite default_opts false) 1 20000000 in
  let View := ("1000" +:+ nl +:+ "1800" +:+ nl)%string in
  exists st,
    Mapped.scan nt_api opts (Mapped.terminated View) (Mapped.scan_fuel opts View)
      "trace.txt" View 0 (loop_start fresh) = Some (Mapped.Finished st)
    /\ st = per_line nt_api opts 16 failed_text "trace.txt" (view_lines View) 1
              (loop_start fresh)
    /\ LSymbolized st + LFailed st = 2.
Proof.
  intros opts View.
  apply (Mapped_skip_shifts_line_numbers nt_api opts "trace.txt" View fresh).
  - vm_compute. reflexivity.
  - vm_compute. reflexivity.
  - right. vm_compute. discriminate.
Defined.

(** ** The exit status of the getline revision *)

Lemma Stream_jobs_loop_code api opts dirO noO fileO stdO total Inputs : forall w code w',
  Stream.jobs_loop api opts dirO noO fileO stdO total Inputs w = (Some code, w') ->
  code = EXIT_SUCCESS.
Proof.
  induction Inputs as [|Input rest IH]; intros w code w' H; simpl in H; [discriminate|].
  destruct (ends_with (filename Input) symbolizer_suffix); [eauto|].
  destruct (negb stdO && fs_exists (WFs w) (output_path opts dirO noO fileO Input)
            && negb (Overwrite opts))%bool; [injection H as <- _; reflexivity|].
  destruct (Stream.SymbolizeFile api opts _ Input _) as [[] w2]; [eauto|discriminate].
Qed.

(** X8 -- the exit status of the getline revision of [main] is
    [EXIT_FAILURE] when the engine cannot be initialised and
    [EXIT_SUCCESS] otherwise: lines that fail to resolve, an output that
    exists, a file that cannot be opened or an output that cannot be
    created all end the run with the status of success. *)
Theorem Stream_main_exit_status (api : Api) (opts : Opts_t) (InitOk : bool) (w : World) :
  (Stream.main api opts InitOk w).1 = if InitOk then EXIT_SUCCESS else EXIT_FAILURE.
Proof.
  unfold Stream.main. destruct InitOk; simpl; [|reflexivity].
  destruct (Stream.jobs_loop _ _ _ _ _ _ _ _ _) as [[code|] w2] eqn:E; [|reflexivity].
  simpl. eapply Stream_jobs_loop_code, E.
Qed.

(** ** Generated outputs *)

Lemma filename_plain s :
  existsb is_separator (list_ascii_of_string s) = false -> filename s = s.
Proof.
  destruct s as [|c r]; [reflexivity|]. simpl. intros H.
  apply orb_false_elim in H. destruct H as [-> ->]. reflexivity.
Qed.

Lemma filename_is_plain p :
  existsb is_separator (list_ascii_of_string (filename p)) = false.
Proof.
  induction p as [|c r IH]; [reflexivity|]. simpl.
  destruct (is_separator c) eqn:Hc; [exact IH|].
  destruct (existsb is_separator (list_ascii_of_string r)) eqn:Hr; [exact IH|].
  simpl. rewrite Hc, Hr. reflexivity.
Qed.

Lemma plain_append a b :
  existsb is_separator (list_ascii_of_string a) = false ->
  existsb is_separator (list_ascii_of_string b) = false ->
  existsb is_separator (list_ascii_of_string (a +:+ b)) = false.
Proof.
  induction a as [|c r IH]; intros Ha Hb; [exact Hb|].
  rewrite append_cons. simpl in Ha |- *. apply orb_false_elim in Ha.
  destruct Ha as [-> Hr]. simpl. auto.
Qed.

Lemma separator_ahead a c name :
  is_separator c = true ->
  existsb is_separator (list_ascii_of_string (a +:+ String c name)) = true.
Proof.
  intros Hc. induction a as [|x r IH]; simpl.
  - rewrite Hc. reflexivity.
  - rewrite IH. apply orb_true_r.
Qed.

Lemma filename_after_separator a c name :
  is_separator c = true ->
  existsb is_separator (list_ascii_of_string name) = false ->
  filename (a +:+ String c name) = name.
Proof.
  intros Hc Hn. induction a as [|x r IH].
  - rewrite append_nil_l. simpl. rewrite Hc. apply filename_plain, Hn.
  - rewrite append_cons. simpl. rewrite (separator_ahead r c name Hc), IH.
    destruct (is_separator x); reflexivity.
Qed.

Lemma last_is_separator_cons c r :
  r <> EmptyString -> last_is_separator (String c r) = last_is_separator r.
Proof.
  intros Hr. unfold last_is_separator. simpl.
  destruct (rev (list_ascii_of_string r)) as [|x l] eqn:E; [|reflexivity].
  exfalso. apply (f_equal (@length ascii)) in E. rewrite length_rev in E.
  destruct r; [congruence|discriminate].
Qed.

Lemma last_is_separator_split dir :
  last_is_separator dir = true ->
  exists a c, dir = (a +:+ String c EmptyString)%string /\ is_separator c = true.
Proof.
  induction dir as [|c r IH]; [discriminate|].
  destruct r as [|c' r'].
  - intros H. exists EmptyString, c. split; [reflexivity|exact H].
  - rewrite last_is_separator_cons by discriminate. intros H.
    destruct (IH H) as (a & x & E & Hx). exists (String c a), x.
    rewrite E. split; [reflexivity|exact Hx].
Qed.

Lemma filename_path_join dir name :
  existsb is_separator (list_ascii_of_string name) = false ->
  filename (path_join dir name) = name.
Proof.
  intros Hn. unfold path_join.
  destruct (decide (dir = EmptyString)); [apply filename_plain, Hn|].
  destruct (last_is_separator dir) eqn:E.
  - destruct (last_is_separator_split dir E) as (a & c & -> & Hc).
    rewrite append_assoc, append_cons, append_nil_l.
    apply filename_after_separator; assumption.
  - apply filename_after_separator; [reflexivity|exact Hn].
Qed.

Lemma substring_all t : String.substring 0 (String.length t) t = t.
Proof. induction t as [|c r IH]; [reflexivity|]. simpl. rewrite IH. reflexivity. Qed.

Lemma substring_past s t m :
  String.substring (String.length s) m (s +:+ t) = String.substring 0 m t.
Proof. induction s as [|c r IH]; [reflexivity|]. rewrite append_cons. simpl. exact IH. Qed.

Lemma ends_with_append s suffix : ends_with (s +:+ suffix) suffix = true.
Proof.
  unfold ends_with. rewrite length_append.
  replace (String.length s + String.length suffix - String.length suffix)%nat
    with (String.length s) by lia.
  rewrite substring_past, substring_all, String.eqb_refl.
  rewrite andb_true_r. apply Nat.leb_le. lia.
Qed.

(** X9 -- a batch does not take its own outputs for traces. The output
    path generated for an input when the output is a directory names a
    file that carries the suffix ".symbolizer", whatever the input and
    the directory are called; and the loop of [main] over the jobs, in
    both revisions and whatever the options, passes over an input of that
    name with a message and nothing else. *)
Theorem generated_outputs_are_passed_over
  (api : Api) (opts opts' : Opts_t) (noO fileO dirO' noO' fileO' stdO' : bool)
  (total : N) (Input : string) (rest : list string) (w : World) :
  let Out := output_path opts true noO fileO Input in
  filename Out = (filename Input +:+ symbolizer_suffix)%string
  /\ ends_with (filename Out) symbolizer_suffix = true
  /\ Mapped.jobs_loop api opts' dirO' noO' fileO' stdO' total (Out :: rest) w
     = Mapped.jobs_loop api opts' dirO' noO' fileO' stdO' total rest
         (say (Skipping Out) w)
  /\ Stream.jobs_loop api opts' dirO' noO' fileO' stdO' total (Out :: rest) w
     = Stream.jobs_loop api opts' dirO' noO' fileO' stdO' total rest
         (say (Skipping Out) w).
Proof.
  intros Out.
  assert (Hname : filename Out = (filename Input +:+ symbolizer_suffix)%string).
  { unfold Out, output_path. apply filename_path_join.
    apply plain_append; [apply filename_is_plain|reflexivity]. }
  assert (Hends : ends_with (filename Out) symbolizer_suffix = true).
  { rewrite Hname. apply ends_with_append. }
  split; [exact Hname|]. split; [exact Hends|].
  split; simpl; rewrite Hends; reflexivity.
Qed.
